(** * Nina's Beats: the orchestration core, embedded and verified

    A shallow embedding of [src/lyric_sync.py], [src/director.py],
    [src/particle.py] and [load_assets] of [src/main.py].

    Number model.
    - The time of a cue entry is whatever number [json.load] read, and the
      code only compares it: it is a [PyFloat], a rational, an infinity or
      NaN, compared as Python compares floats (every comparison with NaN is
      false).
    - The transition alpha and the length [dt] of a tick are added and
      divided: they are binary64 primitive floats with IEEE 754 arithmetic,
      as are the numbers of the particle physics.
    - Playback times handed to the queries, wall-clock times and frame times
      are finite floats that the code only compares, or divides once: they
      are rationals ([Q]).
    - The particle budget is a Python [int] and is modelled as [Z]. *)

From Stdlib Require Import ZArith QArith Lia Lqa Floats Sorted.
From stdpp Require Import base option list gmap strings.

Local Open Scope Q_scope.

(** ** Python exceptions and fallible results *)

Inductive PyExc : Type :=
  | ValueError (msg : string)
  | TypeError (msg : string)
  | KeyError (key : string)
  | FileNotFoundError
  | JSONDecodeError.

Inductive result (A : Type) : Type :=
  | Ok (a : A)
  | Raise (e : PyExc).

Arguments Ok {A} a.
Arguments Raise {A} e.

Definition is_ok {A} (r : result A) : bool :=
  match r with Ok _ => true | Raise _ => false end.

Definition rbind {A B} (r : result A) (k : A -> result B) : result B :=
  match r with Ok a => k a | Raise e => Raise e end.

(** [for x in xs: acc.append(f(x))], stopping at the first exception. *)
Fixpoint rmap {A B} (f : A -> result B) (xs : list A) : result (list B) :=
  match xs with
  | [] => Ok []
  | x :: xs' =>
      rbind (f x) (fun y => rbind (rmap f xs') (fun ys => Ok (y :: ys)))
  end.

(** Comparisons of times: [a < b] and [a <= b] as the code evaluates them. *)
Definition Qltb (a b : Q) : bool := QMicromega.Qlt_bool a b.

Definition Qleb (a b : Q) : bool := Qle_bool a b.

(** A Python float that is only compared: a number, [inf] or [-inf], or
    [nan]. *)
Inductive PyFloat : Type :=
  | Fin (q : Q)
  | Inf (negative : bool)
  | NaN.

(** [a < b] on floats: false as soon as one side is NaN. *)
Definition fltb (a b : PyFloat) : bool :=
  match a, b with
  | NaN, _ | _, NaN => false
  | Fin x, Fin y => Qltb x y
  | Fin _, Inf negative => negb negative
  | Inf negative, Fin _ => negative
  | Inf n1, Inf n2 => n1 && negb n2
  end.

(** [a <= b] on floats. *)
Definition fleb (a b : PyFloat) : bool :=
  match a, b with
  | NaN, _ | _, NaN => false
  | Fin x, Fin y => Qleb x y
  | Fin _, Inf negative => negb negative
  | Inf negative, Fin _ => negative
  | Inf n1, Inf n2 => n1 || negb n2
  end.

(** ** lyric_sync.py *)

Module LyricSync.

(** [@dataclass class LyricEntry] *)
Record LyricEntry : Type := mkLyricEntry {
  time : PyFloat;         (* seconds *)
  text : string;
  scene : option string   (* Optional[str] *)
}.

(** [LyricEntry(time=..., text=..., scene=...)]: the generated [__init__]
    stores the fields and runs [__post_init__]. *)
Definition LyricEntry_new (time : PyFloat) (text : string) (scene : option string)
  : result LyricEntry :=
  if fltb time (Fin 0) then Raise (ValueError "Lyric time cannot be negative")
  else Ok (mkLyricEntry time text scene).

(** [class LyricMap].  [last_triggered_scene_time] is the attribute
    [_last_triggered_scene_time], which [__init__] does not create:
    [None] stands for "attribute absent". *)
Record LyricMap : Type := mkLyricMap {
  entries : list LyricEntry;
  duration : Q;
  finale_message : string;
  last_triggered_scene_time : option PyFloat
}.

Definition default_finale_message : string := "Forever yours,
Ahsan ♥".

(** [sorted(entries, key=lambda e: e.time)] where the times can all be
    compared: the stable sort.  Insertion from the right puts an entry
    before the first one whose time is not smaller, so entries with equal
    times keep their input order.  Where a time is NaN the list that
    [sorted] returns depends on the comparisons its merge algorithm happens
    to make, and is not this one in general. *)
Fixpoint insert_by_time (e : LyricEntry) (l : list LyricEntry) : list LyricEntry :=
  match l with
  | [] => [e]
  | x :: l' =>
      if fltb (time x) (time e) then x :: insert_by_time e l' else e :: x :: l'
  end.

Definition sorted_by_time (l : list LyricEntry) : list LyricEntry :=
  foldr insert_by_time [] l.

(** The builtin [sorted] with the key [lambda e: e.time], as a function of
    the list it is given.  The methods that sort take it as their first
    argument; what is known of it is [LyricSpec.sorts]. *)
Definition Sorter : Type := list LyricEntry -> list LyricEntry.

(** [LyricMap.__init__(self, entries, duration, finale_message)] *)
Definition LyricMap_init (sorted : Sorter) (es : list LyricEntry) (duration : Q)
    (finale_message : string) : LyricMap :=
  mkLyricMap (sorted es) duration finale_message None.

(** [get_lyric_at]: the position the loop returns.  [i] is the index of the
    head of [rest] (the [enumerate] counter), [n] is [len(self.entries)]. *)
Fixpoint lyric_index_from (i : nat) (rest : list LyricEntry) (n : nat) (t : Q)
  : option nat :=
  match rest with
  | [] => if (n =? 0)%nat then None else Some (n - 1)%nat   (* entries[-1] *)
  | e :: rest' =>
      if fltb (Fin t) (time e)                                (* entry.time > time *)
      then (if (0 <? i)%nat then Some (i - 1)%nat else None)
      else lyric_index_from (S i) rest' n t
  end.

Definition get_lyric_index (m : LyricMap) (t : Q) : option nat :=
  lyric_index_from 0 (entries m) (length (entries m)) t.

Definition get_lyric_at (m : LyricMap) (t : Q) : option LyricEntry :=
  match get_lyric_index m t with
  | Some i => entries m !! i
  | None => None
  end.

(** Python truthiness of an [Optional[str]]: [None] and [""] are falsy. *)
Definition truthy (s : option string) : bool :=
  match s with
  | Some (String _ _) => true
  | _ => false
  end.

(** The loop of [get_scene_trigger] over [reversed(self.entries)]: the entry
    whose scene is returned, if any.  [last] is the cursor. *)
Fixpoint scan_trigger (rev_entries : list LyricEntry) (t : Q) (last : PyFloat)
  : option LyricEntry :=
  match rev_entries with
  | [] => None
  | e :: rest =>
      if truthy (scene e) && fleb (time e) (Fin t) then
        if fltb last (time e) then Some e   (* set the cursor, return *)
        else None                           (* break *)
      else scan_trigger rest t last
  end.

(** The cursor as the loop reads it: [-1.0] when it was just created. *)
Definition cursor (m : LyricMap) : PyFloat :=
  match last_triggered_scene_time m with
  | Some c => c
  | None => Fin (-1)
  end.

Definition set_cursor (c : PyFloat) (m : LyricMap) : LyricMap :=
  mkLyricMap (entries m) (duration m) (finale_message m) (Some c).

(** [get_scene_trigger(self, time)]: the result and the map afterwards. *)
Definition get_scene_trigger (m : LyricMap) (t : Q) : option string * LyricMap :=
  let last := cursor m in
  match scan_trigger (rev (entries m)) t last with
  | Some e => (scene e, set_cursor (time e) m)
  | None => (None, set_cursor last m)
  end.

(** [get_finale_message] *)
Definition get_finale_message (m : LyricMap) : string := finale_message m.

(** *** Calling [LyricMap(...)]

    Python binds the arguments of a call to the parameters of [__init__]
    before the body runs.  Argument values are the three types the
    annotations name. *)
Inductive PyArg : Type :=
  | AEntries (es : list LyricEntry)
  | ANum (q : Q)
  | AStr (s : string).

(** Parameters of [LyricMap.__init__] after [self]; only [entries] has no
    default. *)
Definition LyricMap_params : list string :=
  ["entries"; "duration"; "finale_message"].

Fixpoint assoc (k : string) (b : list (string * PyArg)) : option PyArg :=
  match b with
  | [] => None
  | (k', v) :: b' => if String.eqb k k' then Some v else assoc k b'
  end.

Fixpoint bind_positional (params : list string) (pos : list PyArg)
  : result (list (string * PyArg)) :=
  match pos, params with
  | [], _ => Ok []
  | a :: pos', p :: params' =>
      rbind (bind_positional params' pos') (fun b => Ok ((p, a) :: b))
  | _ :: _, [] => Raise (TypeError "too many positional arguments")
  end.

Fixpoint bind_keywords (params : list string) (bound kw : list (string * PyArg))
  : result (list (string * PyArg)) :=
  match kw with
  | [] => Ok bound
  | (k, v) :: kw' =>
      if negb (existsb (String.eqb k) params) then
        Raise (TypeError ("got an unexpected keyword argument '" ++ k ++ "'"))
      else match assoc k bound with
        | Some _ =>
            Raise (TypeError ("got multiple values for argument '" ++ k ++ "'"))
        | None => bind_keywords params (bound ++ [(k, v)]) kw'
        end
  end.

(** A call of [LyricMap] with positional arguments [pos] and keyword
    arguments [kw]: bind, fill in the defaults, run [__init__].
    An argument of a type other than the annotated one is outside the model
    and is reported as a [TypeError]. *)
Definition LyricMap_call (sorted : Sorter) (pos : list PyArg)
    (kw : list (string * PyArg)) : result LyricMap :=
  rbind (bind_positional LyricMap_params pos) (fun b0 =>
  rbind (bind_keywords LyricMap_params b0 kw) (fun b =>
  match assoc "entries" b with
  | None => Raise (TypeError "missing 1 required positional argument: 'entries'")
  | Some (AEntries es) =>
      match default (ANum 180) (assoc "duration" b),
            default (AStr default_finale_message) (assoc "finale_message" b) with
      | ANum d, AStr f => Ok (LyricMap_init sorted es d f)
      | _, _ => Raise (TypeError "ill-typed argument")
      end
  | Some _ => Raise (TypeError "ill-typed argument")
  end)).

(** *** Loading

    A parsed [lyrics.json] whose present fields have the types of the
    schema; an absent key is [None].  [json.load] reads the tokens [NaN],
    [Infinity] and [-Infinity] as floats, so a time is any [PyFloat]. *)
Record CueRecord : Type := mkCueRecord {
  item_time : option PyFloat;
  item_text : option string;
  item_scene : option string
}.

Record CueSource : Type := mkCueSource {
  src_lyrics : option (list CueRecord);
  src_duration_seconds : option Q;
  src_finale_message : option string
}.

(** [LyricEntry(time=item["time"], text=item["text"], scene=item.get("scene"))] *)
Definition entry_of_item (item : CueRecord) : result LyricEntry :=
  match item_time item with
  | None => Raise (KeyError "time")
  | Some t =>
      match item_text item with
      | None => Raise (KeyError "text")
      | Some x => LyricEntry_new t x (item_scene item)
      end
  end.

(** [LyricMap.from_json(path)].  [file] is what [open] and [json.load]
    give for the path: the parsed document or the exception they raise. *)
Definition from_json (sorted : Sorter) (file : result CueSource) : result LyricMap :=
  rbind file (fun data =>
  rbind (rmap entry_of_item (default [] (src_lyrics data))) (fun es =>
  let duration := default 180 (src_duration_seconds data) in
  let finale := default default_finale_message (src_finale_message data) in
  LyricMap_call sorted [AEntries es]
    [("duration", ANum duration); ("finale_message", AStr finale)])).

End LyricSync.

(** ** scenes/ : what the Director sees of a scene *)

Module Scenes.

(** The scene classes exported by [scenes/__init__.py]. *)
Inductive SceneClass : Type :=
  | SceneIntro
  | SceneStarfield
  | SceneMatrixRain
  | SceneFireworks
  | SceneHeartbeat
  | SceneWaveform
  | SceneFinale.

(** The class attribute [name]. *)
Definition class_name (c : SceneClass) : string :=
  match c with
  | SceneIntro => "intro"
  | SceneStarfield => "starfield"
  | SceneMatrixRain => "matrix_rain"
  | SceneFireworks => "fireworks"
  | SceneHeartbeat => "heartbeat"
  | SceneWaveform => "waveform"
  | SceneFinale => "finale"
  end.

(** Only [SceneFinale.__init__] has a [finale_message] parameter; every
    class accepts a call with the context alone. *)
Definition accepts_finale_message (c : SceneClass) : bool :=
  match c with
  | SceneFinale => true
  | _ => false
  end.

(** [@dataclass class SceneContext] *)
Record SceneContext : Type := mkSceneContext {
  console_width : Z;
  console_height : Z;
  song_time : Q;
  scene_time : Q;
  beat_intensity : Q;
  is_transitioning : bool
}.

(** A scene object: its identity and the constructor call that made it.
    The animation state behind it is scene-local and not modelled; its
    methods are taken to return normally. *)
Record Scene : Type := mkScene {
  scene_id : nat;
  scene_class : SceneClass;
  init_context : SceneContext;
  init_finale_message : option string   (* the keyword argument, if passed *)
}.

Definition name (s : Scene) : string := class_name (scene_class s).

(** The calls the Director makes on scene objects, in the order made.
    A console (frame sink) is identified by a number. *)
Inductive Event : Type :=
  | Construct (s : Scene)
  | Enter (id : nat)
  | Exit (id : nat)
  | Update (id : nat) (dt : float) (context : SceneContext)
  | Render (id : nat) (console : nat) (alpha : float).

End Scenes.

(** ** director.py *)

Module Director.

Import LyricSync Scenes.

Definition TARGET_FPS : Q := 30.

(** [FRAME_TIME = 1.0 / TARGET_FPS], as the lag threshold of
    [monitor_performance] reads it. *)
Definition FRAME_TIME : Q := 1 / TARGET_FPS.

Definition INITIAL_PARTICLE_BUDGET : Z := 500.

Definition MIN_PARTICLE_BUDGET : Z := 50.

Definition LAG_THRESHOLD_MULTIPLIER : Q := 1.5.

Definition FADE_DURATION : float := 0.5%float.

(** [FRAME_TIME] as the ticks of the main loop carry it: the binary64
    quotient [1.0 / 30]. *)
Module Binary64.

Definition FRAME_TIME : float := (1 / 30)%float.

End Binary64.

(** [@dataclass class DirectorState].  The fields [current_scene],
    [next_scene], [transition_alpha] and [pending_quit] of the dataclass are
    never written or read by the Director and are left out; [lyric_map] is
    the same object as [Director.lyric_map] and is kept there. *)
Record DirectorState : Type := mkDirectorState {
  start_time : Q;
  current_time : Q;
  is_paused : bool;
  pause_offset : Q;
  current_lyric : option LyricEntry;
  last_frame_time : Q;
  fps : Q;
  particle_budget : Z
}.

Definition DirectorState_init : DirectorState :=
  mkDirectorState 0 0 false 0 None 0 0 INITIAL_PARTICLE_BUDGET.

(** [class Director]: the attributes set by [__init__]. *)
Record Director : Type := mkDirector {
  lyric_map : option LyricMap;          (* [None] is the falsy case of [if self.lyric_map] *)
  scenes : gmap string SceneClass;
  current_scene : option Scene;
  next_scene_name : option string;
  transition_alpha : float;
  transitioning_scene : option Scene;
  state : DirectorState;
  scene_start_time : Q
}.

(** What a call runs in: the Director object, the scene calls made so far
    (oldest first), the identity of the next object to be created, and the
    wall clock [time.time()] reads. *)
Record World : Type := mkWorld {
  director : Director;
  trace : list Event;
  next_id : nat;
  wall_clock : Q
}.

(** Field assignments. *)
Definition set_lyric_map v (d : Director) : Director :=
  mkDirector v (scenes d) (current_scene d) (next_scene_name d)
    (transition_alpha d) (transitioning_scene d) (state d) (scene_start_time d).

Definition set_scenes v (d : Director) : Director :=
  mkDirector (lyric_map d) v (current_scene d) (next_scene_name d)
    (transition_alpha d) (transitioning_scene d) (state d) (scene_start_time d).

Definition set_current_scene v (d : Director) : Director :=
  mkDirector (lyric_map d) (scenes d) v (next_scene_name d)
    (transition_alpha d) (transitioning_scene d) (state d) (scene_start_time d).

Definition set_next_scene_name v (d : Director) : Director :=
  mkDirector (lyric_map d) (scenes d) (current_scene d) v
    (transition_alpha d) (transitioning_scene d) (state d) (scene_start_time d).

Definition set_transition_alpha (v : float) (d : Director) : Director :=
  mkDirector (lyric_map d) (scenes d) (current_scene d) (next_scene_name d)
    v (transitioning_scene d) (state d) (scene_start_time d).

Definition set_transitioning_scene v (d : Director) : Director :=
  mkDirector (lyric_map d) (scenes d) (current_scene d) (next_scene_name d)
    (transition_alpha d) v (state d) (scene_start_time d).

Definition set_state v (d : Director) : Director :=
  mkDirector (lyric_map d) (scenes d) (current_scene d) (next_scene_name d)
    (transition_alpha d) (transitioning_scene d) v (scene_start_time d).

Definition set_scene_start_time v (d : Director) : Director :=
  mkDirector (lyric_map d) (scenes d) (current_scene d) (next_scene_name d)
    (transition_alpha d) (transitioning_scene d) (state d) v.

Definition set_current_time v (s : DirectorState) : DirectorState :=
  mkDirectorState (start_time s) v (is_paused s) (pause_offset s)
    (current_lyric s) (last_frame_time s) (fps s) (particle_budget s).

Definition set_current_lyric v (s : DirectorState) : DirectorState :=
  mkDirectorState (start_time s) (current_time s) (is_paused s) (pause_offset s)
    v (last_frame_time s) (fps s) (particle_budget s).

Definition set_last_frame_time v (s : DirectorState) : DirectorState :=
  mkDirectorState (start_time s) (current_time s) (is_paused s) (pause_offset s)
    (current_lyric s) v (fps s) (particle_budget s).

Definition set_fps v (s : DirectorState) : DirectorState :=
  mkDirectorState (start_time s) (current_time s) (is_paused s) (pause_offset s)
    (current_lyric s) (last_frame_time s) v (particle_budget s).

Definition set_particle_budget v (s : DirectorState) : DirectorState :=
  mkDirectorState (start_time s) (current_time s) (is_paused s) (pause_offset s)
    (current_lyric s) (last_frame_time s) (fps s) v.

(** *** The monad of Director methods: state and exceptions.  A raised
    exception keeps the assignments made before it. *)
Definition M (A : Type) : Type := World -> result A * World.

Definition ret {A} (a : A) : M A := fun w => (Ok a, w).

Definition raise {A} (e : PyExc) : M A := fun w => (Raise e, w).

Definition bind {A B} (m : M A) (k : A -> M B) : M B :=
  fun w =>
    match m w with
    | (Ok a, w') => k a w'
    | (Raise e, w') => (Raise e, w')
    end.

Declare Scope py_scope.

Delimit Scope py_scope with py.

Notation "x <~ m ;; k" := (bind m (fun x => k))
  (at level 100, m at next level, k at level 200, right associativity) : py_scope.

Notation "m ;;; k" := (bind m (fun _ => k))
  (at level 100, k at level 200, right associativity) : py_scope.

Local Open Scope py_scope.

Definition self : M Director := fun w => (Ok (director w), w).

Definition assign (f : Director -> Director) : M unit :=
  fun w => (Ok tt, mkWorld (f (director w)) (trace w) (next_id w) (wall_clock w)).

Definition call (e : Event) : M unit :=
  fun w => (Ok tt, mkWorld (director w) (trace w ++ [e]) (next_id w) (wall_clock w)).

Definition new_id : M nat :=
  fun w => (Ok (next_id w), mkWorld (director w) (trace w) (S (next_id w)) (wall_clock w)).

Definition time_time : M Q := fun w => (Ok (wall_clock w), w).

(** [if obj: obj.method(...)] *)
Definition when_scene (s : option Scene) (f : Scene -> M unit) : M unit :=
  match s with
  | Some sc => f sc
  | None => ret tt
  end.

(** [SceneClass(context)] and [SceneClass(context, finale_message=msg)]. *)
Definition instantiate (cls : SceneClass) (context : SceneContext)
    (finale_message : option string) : M Scene :=
  let rejected :=
    match finale_message with
    | Some _ => negb (accepts_finale_message cls)
    | None => false
    end in
  if rejected then
    raise (TypeError "got an unexpected keyword argument 'finale_message'")
  else
    id <~ new_id ;;
    let s := mkScene id cls context finale_message in
    call (Construct s) ;;;
    ret s.

(** [Director.__init__(self, lyric_map)] *)
Definition Director_init (lm : option LyricMap) : Director :=
  mkDirector lm ∅ None None 0%float None DirectorState_init 0.

Definition World_init (lm : option LyricMap) : World :=
  mkWorld (Director_init lm) [] 0 0.

(** [register_scene] *)
Definition register_scene (name : string) (scene_class : SceneClass) : M unit :=
  assign (fun d => set_scenes (<[name := scene_class]> (scenes d)) d).

(** [transition_to] *)
Definition transition_to (scene_name : string) : M unit :=
  d <~ self ;;
  match scenes d !! scene_name with
  | None => raise (ValueError ("Unknown scene: " ++ scene_name))
  | Some _ =>
      assign (set_next_scene_name (Some scene_name)) ;;;
      assign (set_transition_alpha 0%float)
  end.

(** [_complete_transition] *)
Definition _complete_transition : M unit :=
  d <~ self ;;
  match transitioning_scene d with
  | Some incoming =>
      when_scene (current_scene d) (fun s => call (Exit (scene_id s))) ;;;
      assign (set_current_scene (Some incoming)) ;;;
      assign (set_transitioning_scene None)
  | None =>
      match next_scene_name d with
      | None => ret tt                           (* [None in self.scenes] is false *)
      | Some next =>
          match scenes d !! next with
          | None => ret tt
          | Some SceneClass =>
              let context :=
                mkSceneContext 80 24 (current_time (state d)) 0 0 false in
              when_scene (current_scene d) (fun s => call (Exit (scene_id s))) ;;;
              s <~ (match lyric_map d with
                    | Some lm =>
                        if String.eqb next "finale"
                        then instantiate SceneClass context (Some (finale_message lm))
                        else instantiate SceneClass context None
                    | None => instantiate SceneClass context None
                    end) ;;
              assign (set_current_scene (Some s)) ;;;
              call (Enter (scene_id s))
          end
      end
  end ;;;
  assign (set_next_scene_name None) ;;;
  assign (set_transition_alpha 0%float) ;;;
  now <~ time_time ;;
  assign (set_scene_start_time now).

(** [update_scenes]: the sum, the quotient and the comparison with [1.0]
    are those of binary64. *)
Definition update_scenes (dt : float) (context : SceneContext) : M unit :=
  d <~ self ;;
  when_scene (current_scene d) (fun s => call (Update (scene_id s) dt context)) ;;;
  when_scene (transitioning_scene d) (fun s => call (Update (scene_id s) dt context)) ;;;
  match next_scene_name d with
  | Some _ =>
      assign (fun d =>
        set_transition_alpha (transition_alpha d + dt / FADE_DURATION)%float d) ;;;
      d' <~ self ;;
      if (1 <=? transition_alpha d')%float then _complete_transition else ret tt
  | None => ret tt
  end.

(** [render_scenes] *)
Definition render_scenes (console : nat) : M unit :=
  d <~ self ;;
  match transitioning_scene d, current_scene d with
  | Some incoming, Some current =>
      let old_alpha := (1 - transition_alpha d)%float in
      let new_alpha := transition_alpha d in
      call (Render (scene_id current) console old_alpha) ;;;
      call (Render (scene_id incoming) console new_alpha)
  | _, Some current => call (Render (scene_id current) console 1%float)
  | _, None => ret tt
  end.

(** [get_current_scene_name] *)
Definition get_current_scene_name (d : Director) : option string :=
  match current_scene d with
  | Some s => Some (name s)
  | None => None
  end.

(** [check_scene_triggers] *)
Definition check_scene_triggers (time : Q) : M unit :=
  d <~ self ;;
  match lyric_map d with
  | Some lm =>
      let '(scene_name, lm') := get_scene_trigger lm time in
      assign (set_lyric_map (Some lm')) ;;;
      d' <~ self ;;
      match scene_name with
      | Some n =>
          if truthy scene_name
             && negb (bool_decide (scene_name = get_current_scene_name d'))
          then transition_to n
          else ret tt
      | None => ret tt
      end
  | None => ret tt
  end.

(** [update_lyric] *)
Definition update_lyric (time : Q) : M unit :=
  d <~ self ;;
  match lyric_map d with
  | Some lm =>
      assign (fun d => set_state (set_current_lyric (get_lyric_at lm time) (state d)) d)
  | None => ret tt
  end.

(** [int(x)] for a float [x]: truncation toward zero. *)
Definition py_int (x : Q) : Z := Z.quot (Qnum x) (Z.pos (Qden x)).

(** [monitor_performance] *)
Definition monitor_performance (frame_time : Q) : M unit :=
  assign (fun d => set_state (set_last_frame_time frame_time (state d)) d) ;;;
  (if Qltb 0 frame_time
   then assign (fun d => set_state (set_fps (1 / frame_time) (state d)) d)
   else ret tt) ;;;
  if Qltb (FRAME_TIME * LAG_THRESHOLD_MULTIPLIER) frame_time
  then assign (fun d =>
         set_state
           (set_particle_budget
              (Z.max MIN_PARTICLE_BUDGET
                     (py_int (inject_Z (particle_budget (state d)) * 0.75)))
              (state d)) d)
  else ret tt.

(** *** Driving a Director: the calls a client can make, and running a
    sequence of them.  An exception ends the call that raised it; the
    client goes on with the Director as that call left it. *)
Inductive Call : Type :=
  | RegisterScene (name : string) (scene_class : SceneClass)
  | TransitionTo (scene_name : string)
  | UpdateScenes (dt : float) (context : SceneContext)
  | RenderScenes (console : nat)
  | CompleteTransition
  | CheckSceneTriggers (time : Q)
  | UpdateLyric (time : Q)
  | MonitorPerformance (frame_time : Q)
  | SetCurrentTime (time : Q)          (* [director.state.current_time = t] *)
  | WallClock (now : Q).               (* the environment's clock moves *)

Definition perform (c : Call) : M unit :=
  match c with
  | RegisterScene n cls => register_scene n cls
  | TransitionTo n => transition_to n
  | UpdateScenes dt ctx => update_scenes dt ctx
  | RenderScenes console => render_scenes console
  | CompleteTransition => _complete_transition
  | CheckSceneTriggers t => check_scene_triggers t
  | UpdateLyric t => update_lyric t
  | MonitorPerformance ft => monitor_performance ft
  | SetCurrentTime t =>
      assign (fun d => set_state (set_current_time t (state d)) d)
  | WallClock now =>
      fun w => (Ok tt, mkWorld (director w) (trace w) (next_id w) now)
  end.

Definition step (w : World) (c : Call) : World := snd (perform c w).

Definition run (cs : list Call) (w : World) : World := foldl step w cs.

(** The events a computation appends to the trace. *)
Definition emitted (w w' : World) : list Event :=
  drop (length (trace w)) (trace w').

End Director.

(** ** particle.py, in binary64 arithmetic *)

Module Particle.

Local Open Scope float_scope.

(** [@dataclass class Particle].  [color] is the RGB triplet of the
    [rich.color.Color]. *)
Record Particle : Type := mkParticle {
  x : float;
  y : float;
  vx : float;
  vy : float;
  gravity : float;
  drag : float;
  life : float;
  max_life : float;
  char : string;
  color : Z * Z * Z
}.

(** [max(0, v)]: Python keeps the first argument unless a later one is
    greater. *)
Definition max0 (v : float) : float := if 0 <? v then v else 0.

(** [Particle.update(dt)] *)
Definition update (p : Particle) (dt : float) : Particle :=
  let vy1 := vy p + gravity p * dt in
  let drag_factor := max0 (1 - drag p * dt) in
  let vx2 := vx p * drag_factor in
  let vy2 := vy1 * drag_factor in
  let x' := x p + vx2 * dt in
  let y' := y p + vy2 * dt in
  let life' := life p - dt / max_life p in
  mkParticle x' y' vx2 vy2 (gravity p) (drag p) life' (max_life p)
    (char p) (color p).

(** [Particle.is_alive()] *)
Definition is_alive (p : Particle) : bool := 0 <? life p.

(** [n] calls of [update(dt)] in a row. *)
Fixpoint update_n (n : nat) (p : Particle) (dt : float) : Particle :=
  match n with
  | O => p
  | S n' => update_n n' (update p dt) dt
  end.

End Particle.

(** ** main.py: asset loading *)

Module Main.

Import LyricSync.

(** The files [load_assets] looks at: whether a path exists, and what
    opening and parsing it as JSON gives. *)
Record FileSystem : Type := mkFileSystem {
  path_exists : string -> bool;
  read_json : string -> result CueSource
}.

(** [load_assets(lyrics_path, audio_path)].  The console messages are not
    modelled.  [except Exception] catches every exception of [from_json];
    the [else] branch is outside the [try]. *)
Definition load_assets (sorted : Sorter) (fs : FileSystem)
    (lyrics_path audio_path : string)
  : result (option LyricMap * option string) :=
  rbind
    (if path_exists fs lyrics_path then
       match from_json sorted (read_json fs lyrics_path) with
       | Ok m => Ok (Some m)
       | Raise _ => Ok None
       end
     else
       rbind
         (LyricMap_call sorted []
            [("lyrics", AEntries []);
             ("finale_message", AStr "Forever yours,
Ahsan ♥")])
         (fun m => Ok (Some m)))
    (fun lyric_map =>
       if negb (path_exists fs audio_path) then Ok (lyric_map, None)
       else Ok (lyric_map, Some audio_path)).

End Main.

(** * Vocabulary of the properties

    Predicates, abstractions of the loops, and the concrete inputs the
    examples run on. *)

(** Comparisons of floats as propositions, and Python's [==]. *)
Definition flt (a b : PyFloat) : Prop := fltb a b = true.

Definition fle (a b : PyFloat) : Prop := fleb a b = true.

Definition feqb (a b : PyFloat) : bool := fleb a b && fleb b a.

Definition feq (a b : PyFloat) : Prop := feqb a b = true.

Module LyricSpec.
Import LyricSync.

(** The time of the entry is not NaN. *)
Definition timed (e : LyricEntry) : Prop := time e <> NaN.

(** Ascending by time, as [sorted] leaves entries whose times can be
    compared. *)
Definition by_time (a b : LyricEntry) : Prop := fle (time a) (time b).

Definition ascending (l : list LyricEntry) : Prop :=
  Sorted by_time l /\ Forall timed l.

(** What is known of the builtin [sorted]: the result is a rearrangement
    of the argument, and it is the stable sort where no time is NaN. *)
Definition sorts (sorted : Sorter) : Prop :=
  (forall l, sorted l ≡ₚ l) /\
  (forall l, Forall timed l -> sorted l = sorted_by_time l).

(** Number of leading entries whose time is not after [t]. *)
Fixpoint leading (t : Q) (l : list LyricEntry) : nat :=
  match l with
  | [] => 0
  | e :: l' => if fltb (Fin t) (time e) then 0 else S (leading t l')
  end.

(** The position just before index [k], if there is one. *)
Definition before (k : nat) : option nat :=
  match k with
  | O => None
  | S j => Some j
  end.

(** A small cue map with two entries at the same time. *)
Definition demo_entries : list LyricEntry :=
  [ mkLyricEntry (Fin 0) "" (Some "intro");
    mkLyricEntry (Fin 10) "hi" (Some "starfield");
    mkLyricEntry (Fin 10) "there" None;
    mkLyricEntry (Fin 25) "bye" (Some "finale") ].

Definition demo_map : LyricMap :=
  LyricMap_init sorted_by_time demo_entries 30 "The end".

(** The test of the loop: the entry has a scene and its time is crossed. *)
Definition crossed (t : Q) (e : LyricEntry) : bool :=
  truthy (scene e) && fleb (time e) (Fin t).

(** First entry of the reversed list that passes the test. *)
Fixpoint newest (t : Q) (rev_entries : list LyricEntry) : option LyricEntry :=
  match rev_entries with
  | [] => None
  | e :: rest => if crossed t e then Some e else newest t rest
  end.

(** In the words of the specification: [e] is an entry with a non-empty
    scene trigger and the greatest time not after [t]. *)
Definition latest_trigger (m : LyricMap) (t : Q) (e : LyricEntry) : Prop :=
  e ∈ entries m /\ truthy (scene e) = true /\ fle (time e) (Fin t) /\
  forall e', e' ∈ entries m -> truthy (scene e') = true -> fle (time e') (Fin t) ->
    fle (time e') (time e).

(** No entry with a scene trigger has been crossed at [t]. *)
Definition no_trigger (m : LyricMap) (t : Q) : Prop :=
  forall e, e ∈ entries m -> truthy (scene e) = true -> ~ fle (time e) (Fin t).

(** The times that fire over a sequence of queries, oldest first: the time
    the cursor is set to by each query that returns a scene. *)
Fixpoint fired (m : LyricMap) (ts : list Q) : list PyFloat :=
  match ts with
  | [] => []
  | t :: ts' =>
      let '(r, m') := get_scene_trigger m t in
      match r with
      | Some _ => cursor m' :: fired m' ts'
      | None => fired m' ts'
      end
  end.

(** How often the trigger time [T] fires over the queries [ts]. *)
Definition times_fired (T : Q) (m : LyricMap) (ts : list Q) : nat :=
  length (filter (fun x => feqb x (Fin T) = true) (fired m ts)).

(** [e] came out of the [LyricEntry] constructor. *)
Definition constructed (e : LyricEntry) : Prop :=
  exists t x s, LyricEntry_new t x s = Ok e.

(** The time of [e] is not below 0, and is at least 0 if it is a number. *)
Definition not_negative (e : LyricEntry) : Prop :=
  ~ flt (time e) (Fin 0) /\ (timed e -> fle (Fin 0) (time e)).

(** A parsed document with two records, out of order, and no finale
    message. *)
Definition demo_source : CueSource :=
  mkCueSource
    (Some [mkCueRecord (Some (Fin 10)) (Some "hi") (Some "starfield");
           mkCueRecord (Some (Fin 0)) (Some "") None])
    (Some 20) None.

(** The document [{"lyrics": [{"time": NaN, "text": "la"}]}].  It has one
    record, so that sorting its entries cannot move anything. *)
Definition nan_source : CueSource :=
  mkCueSource (Some [mkCueRecord (Some NaN) (Some "la") None]) None None.

End LyricSpec.

Module MainSpec.
Import LyricSync Main.

(** A file system on which nothing exists. *)
Definition empty_fs : FileSystem :=
  mkFileSystem (fun _ => false) (fun _ => Raise FileNotFoundError).

(** A file system holding a well-formed [lyrics.json] and no audio. *)
Definition lyrics_only_fs : FileSystem :=
  mkFileSystem (fun p => String.eqb p "assets/lyrics.json")
    (fun p => if String.eqb p "assets/lyrics.json"
              then Ok LyricSpec.demo_source else Raise FileNotFoundError).

End MainSpec.

(** A binary64 value, decoded, that is zero, positive or [+inf]. *)
Definition sf_nonneg (x : spec_float) : bool :=
  match x with
  | S754_zero _ => true
  | S754_infinity s | S754_finite s _ _ => negb s
  | S754_nan => false
  end.

Module DirectorSpec.
Import LyricSync Scenes Director.

(** The object an event is about. *)
Definition event_id (ev : Event) : nat :=
  match ev with
  | Construct s => scene_id s
  | Enter i | Exit i | Update i _ _ | Render i _ _ => i
  end.

(** What a client may be assumed to do: tick with a non-negative [dt], and
    register under "finale" only a class whose constructor takes the
    finale message (as [main] does). *)
Definition valid_call (c : Call) : Prop :=
  match c with
  | UpdateScenes dt _ => (0 <=? dt)%float = true
  | RegisterScene n cls => n = "finale" -> accepts_finale_message cls = true
  | _ => True
  end.

(** How the Director's fields hang together. *)
Record wired (w : World) : Prop := mkWired {
  wired_no_incoming : transitioning_scene (director w) = None;
  wired_pending : forall n, next_scene_name (director w) = Some n ->
                    is_Some (scenes (director w) !! n);
  wired_finale : forall cls, scenes (director w) !! "finale" = Some cls ->
                   accepts_finale_message cls = true;
  wired_trace : Forall (fun ev => (event_id ev < next_id w)%nat) (trace w);
  wired_current : forall s, current_scene (director w) = Some s ->
                    (scene_id s < next_id w)%nat
}.

(** What holds after every valid call. *)
Record inv (w : World) : Prop := mkInv {
  inv_wired : wired w;
  inv_alpha : (0 <=? transition_alpha (director w))%float = true /\
              (1 <=? transition_alpha (director w))%float = false;
  inv_budget : (MIN_PARTICLE_BUDGET <= particle_budget (state (director w)))%Z
}.

(** State changes, for stating what a method leaves behind. *)
Definition upd (f : Director -> Director) (w : World) : World :=
  mkWorld (f (director w)) (trace w) (next_id w) (wall_clock w).

Definition logged (evs : list Event) (w : World) : World :=
  mkWorld (director w) (trace w ++ evs) (next_id w) (wall_clock w).

(** The keyword argument [_complete_transition] passes for the name [n]. *)
Definition finale_arg (d : Director) (n : string) : option string :=
  match lyric_map d with
  | Some lm => if String.eqb n "finale" then Some (finale_message lm) else None
  | None => None
  end.

(** The [exit()] and [update()] calls on the current scene, if any. *)
Definition exit_events (d : Director) : list Event :=
  match current_scene d with
  | Some old => [Exit (scene_id old)]
  | None => []
  end.

Definition update_events (d : Director) (dt : float) (ctx : SceneContext) : list Event :=
  match current_scene d with
  | Some s => [Update (scene_id s) dt ctx]
  | None => []
  end.

(** The scene object a completion for [n], registered as [cls], creates. *)
Definition incoming (w : World) (n : string) (cls : SceneClass) : Scene :=
  mkScene (next_id w) cls
    (mkSceneContext 80 24 (current_time (state (director w))) 0 0 false)
    (finale_arg (director w) n).

(** The world a completion for [n] leaves. *)
Definition completed (w : World) (n : string) (cls : SceneClass) : World :=
  let s := incoming w n cls in
  mkWorld
    (set_scene_start_time (wall_clock w)
       (set_transition_alpha 0%float
          (set_next_scene_name None
             (set_current_scene (Some s) (director w)))))
    (trace w ++ exit_events (director w) ++ [Construct s; Enter (scene_id s)])
    (S (next_id w)) (wall_clock w).

(** The registrations of [main]. *)
Definition main_registrations : list Call :=
  [ RegisterScene "intro" SceneIntro;
    RegisterScene "starfield" SceneStarfield;
    RegisterScene "matrix_rain" SceneMatrixRain;
    RegisterScene "fireworks" SceneFireworks;
    RegisterScene "heartbeat" SceneHeartbeat;
    RegisterScene "waveform" SceneWaveform;
    RegisterScene "finale" SceneFinale ].

(** A frame context as the main loop builds it during a transition. *)
Definition demo_context : SceneContext := mkSceneContext 80 24 0 0 0 true.

(** [main]'s wiring, a completed transition to "intro", and a request for
    "starfield". *)
Definition demo_calls : list Call :=
  main_registrations ++
  [TransitionTo "intro"; CompleteTransition; TransitionTo "starfield"].

(** The Director after [demo_calls]: it shows "intro", and the transition
    to "starfield" is requested and not yet complete. *)
Definition mid_transition : World :=
  run demo_calls (World_init (Some LyricSpec.demo_map)).



(** The world after the [update] calls of a tick. *)
Definition ticked (w : World) (dt : float) (ctx : SceneContext) : World :=
  logged (update_events (director w) dt ctx) w.

(** The world after a tick has added to alpha. *)
Definition advanced (w : World) (dt : float) : World :=
  upd (fun d => set_transition_alpha (transition_alpha d + dt / FADE_DURATION)%float d) w.



End DirectorSpec.

Module ParticleSpec.
Import Particle.
Local Open Scope float_scope.

(** 9.8 as the binary64 value Python reads the literal as. *)
Definition gravity_9_8 : float := 0x1.399999999999ap+3.

(** A particle as the claim describes it. *)
Definition spark : Particle :=
  mkParticle 40 12 3 (-5) gravity_9_8 0 1 2 "*" (255, 215, 0)%Z.

End ParticleSpec.

(** * Properties *)

(** ** Comparisons *)

Lemma Qltb_lt a b : Qltb a b = true <-> a < b.
Proof. apply QMicromega.Qlt_bool_iff. Qed.

Lemma Qleb_le a b : Qleb a b = true <-> a <= b.
Proof. apply Qle_bool_iff. Qed.

Lemma Qltb_ge a b : Qltb a b = false <-> b <= a.
Proof.
  split.
  - intros H. apply Qnot_lt_le. intros L. apply Qltb_lt in L. congruence.
  - intros H. destruct (Qltb a b) eqn:E; [|reflexivity].
    apply Qltb_lt in E. exfalso. revert E. now apply Qle_not_lt.
Qed.

Lemma Qleb_gt a b : Qleb a b = false <-> b < a.
Proof.
  split.
  - intros H. apply Qnot_le_lt. intros L. apply Qleb_le in L. congruence.
  - intros H. destruct (Qleb a b) eqn:E; [|reflexivity].
    apply Qleb_le in E. exfalso. revert H. now apply Qle_not_lt.
Qed.

(** ** Comparisons of floats *)

Arguments fltb : simpl never.

Arguments fleb : simpl never.

Ltac pyfloat :=
  unfold feq, feqb, fle, flt in *;
  repeat match goal with x : PyFloat |- _ => destruct x as [?|[]|] end;
  unfold fltb, fleb in *; simpl in *;
  rewrite ?andb_true_iff, ?Qltb_lt, ?Qleb_le, ?Qltb_ge, ?Qleb_gt in *;
  try discriminate; try congruence; try tauto; try lra.

Lemma fle_trans a b c : fle a b -> fle b c -> fle a c.
Proof. pyfloat. Qed.

Lemma flt_trans a b c : flt a b -> flt b c -> flt a c.
Proof. pyfloat. Qed.

Lemma flt_fle_trans a b c : flt a b -> fle b c -> flt a c.
Proof. pyfloat. Qed.

Lemma fle_flt_trans a b c : fle a b -> flt b c -> flt a c.
Proof. pyfloat. Qed.

Lemma flt_fle a b : flt a b -> fle a b.
Proof. pyfloat. Qed.

Lemma fle_refl a : a <> NaN -> fle a a.
Proof. pyfloat. Qed.

Lemma flt_irrefl a : ~ flt a a.
Proof. pyfloat. Qed.

Lemma fle_not_flt a b : fle a b -> ~ flt b a.
Proof. pyfloat. Qed.

Lemma fle_number a b : fle a b -> a <> NaN /\ b <> NaN.
Proof. pyfloat; intros; split; congruence. Qed.

Lemma flt_number a b : flt a b -> a <> NaN /\ b <> NaN.
Proof. pyfloat; intros; split; congruence. Qed.

(** Between numbers, [a < b] is false exactly when [b <= a]. *)
Lemma fltb_ge a b : a <> NaN -> b <> NaN -> fltb a b = false -> fle b a.
Proof. pyfloat. Qed.

Lemma fle_lteq a b : fle a b <-> flt a b \/ feq a b.
Proof. pyfloat. Qed.

Lemma feq_fle a b : feq a b <-> fle a b /\ fle b a.
Proof. unfold feq, feqb, fle. apply andb_true_iff. Qed.

Lemma fle_Fin a b : fle (Fin a) (Fin b) <-> a <= b.
Proof. pyfloat. Qed.

Lemma flt_Fin a b : flt (Fin a) (Fin b) <-> a < b.
Proof. pyfloat. Qed.

(** ** The cue map *)

Module LyricFacts.
Import LyricSync LyricSpec.

#[local] Instance by_time_trans : Transitive by_time.
Proof. intros a b c; unfold by_time; apply fle_trans. Qed.

Lemma ascending_strongly l : ascending l -> StronglySorted by_time l.
Proof. intros [Hs _]. revert Hs. apply Sorted_StronglySorted. exact by_time_trans. Qed.

Lemma ascending_timed l e : ascending l -> e ∈ l -> timed e.
Proof. intros [_ Ht] He. rewrite Forall_forall in Ht. auto. Qed.

Lemma lyric_index_from_leading i rest n t :
  n = (i + length rest)%nat ->
  lyric_index_from i rest n t = before (i + leading t rest).
Proof.
  revert i. induction rest as [|e rest IH]; intros i Hn; simpl in *.
  - rewrite Nat.add_0_r in *. subst n. destruct i; simpl; [reflexivity|].
    now rewrite Nat.sub_0_r.
  - destruct (fltb (Fin t) (time e)).
    + rewrite Nat.add_0_r. destruct i; simpl; [reflexivity|].
      now rewrite Nat.sub_0_r.
    + rewrite IH by lia. f_equal. lia.
Qed.

Lemma get_lyric_index_leading m t :
  get_lyric_index m t = before (leading t (entries m)).
Proof. unfold get_lyric_index. now rewrite lyric_index_from_leading. Qed.

Lemma leading_le_length t l : (leading t l <= length l)%nat.
Proof.
  induction l as [|e l IH]; simpl; [lia|].
  destruct (fltb (Fin t) (time e)); lia.
Qed.

Lemma leading_within t (l : list LyricEntry) j e :
  Forall timed l ->
  (j < leading t l)%nat -> l !! j = Some e -> fle (time e) (Fin t).
Proof.
  intros Ht. revert j. induction Ht as [|x l Hx Ht IH]; intros j Hj Hl; simpl in *; [lia|].
  destruct (fltb (Fin t) (time x)) eqn:E; [lia|].
  destruct j as [|j]; simpl in Hl.
  - injection Hl as <-. apply fltb_ge; [discriminate|exact Hx|exact E].
  - apply (IH j); [lia|assumption].
Qed.

Lemma leading_covers t (l : list LyricEntry) j e :
  StronglySorted by_time l ->
  l !! j = Some e -> fle (time e) (Fin t) -> (j < leading t l)%nat.
Proof.
  intros Hs. revert j. induction Hs as [|x l Hs IH Hx]; intros j Hl He.
  - discriminate.
  - simpl. destruct (fltb (Fin t) (time x)) eqn:E.
    + exfalso.
      assert (fle (time x) (time e)) as Hxe.
      { destruct j as [|j]; simpl in Hl.
        - injection Hl as <-. apply fle_refl. now apply (flt_number _ _ E).
        - rewrite Forall_forall in Hx. apply Hx.
          apply list_elem_of_lookup. eauto. }
      apply (flt_irrefl (Fin t)).
      eapply flt_fle_trans; [exact E|]. eapply fle_trans; eassumption.
    + destruct j as [|j]; simpl in Hl; [lia|].
      specialize (IH j Hl He). lia.
Qed.

Lemma leading_mono t1 t2 l : t1 <= t2 -> (leading t1 l <= leading t2 l)%nat.
Proof.
  intros Ht. induction l as [|e l IH]; simpl; [lia|].
  destruct (fltb (Fin t1) (time e)) eqn:E1; [lia|].
  destruct (fltb (Fin t2) (time e)) eqn:E2; [|lia].
  exfalso. apply fle_Fin in Ht.
  pose proof (fle_flt_trans _ _ _ Ht E2) as H. unfold flt in H. congruence.
Qed.

Lemma sorted_lookup_le (l : list LyricEntry) i j a b :
  StronglySorted by_time l -> Forall timed l ->
  l !! i = Some a -> l !! j = Some b -> (i <= j)%nat -> fle (time a) (time b).
Proof.
  intros Hs. revert i j. induction Hs as [|x l Hs IH Hx]; intros i j Ht Ha Hb Hij.
  - discriminate.
  - apply Forall_cons in Ht as [Htx Ht].
    destruct i as [|i], j as [|j]; simpl in *; try lia.
    + injection Ha as <-. injection Hb as <-. now apply fle_refl.
    + injection Ha as <-. rewrite Forall_forall in Hx. apply Hx.
      apply list_elem_of_lookup. eauto.
    + apply (IH i j); auto. lia.
Qed.

(** C3. On a cue map whose entries ascend by time, [get_lyric_at] returns
    the entry at the last position whose time is not after [t] (so it has
    the greatest such time and is the last of those sharing it); it returns
    nothing exactly when the map is empty or [t] precedes the first entry;
    and for [0 <= t1 < t2] the entry for [t2] is not after [t2] and sits at
    the same or a later position than the entry for [t1].  The lookup is a
    function of the map and the time alone: it has no map to give back. *)
Theorem get_lyric_at_greatest (m : LyricMap) :
  ascending (entries m) ->
  (forall t e, get_lyric_at m t = Some e ->
     exists i, get_lyric_index m t = Some i /\ entries m !! i = Some e /\
       fle (time e) (Fin t) /\
       forall j e', entries m !! j = Some e' -> fle (time e') (Fin t) ->
         (j <= i)%nat /\ fle (time e') (time e)) /\
  (forall t, get_lyric_at m t = None <->
     entries m = [] \/ exists e0, head (entries m) = Some e0 /\ flt (Fin t) (time e0)) /\
  (forall t1 t2, 0 <= t1 -> t1 < t2 ->
     (forall e2, get_lyric_at m t2 = Some e2 -> ~ flt (Fin t2) (time e2)) /\
     (forall i1, get_lyric_index m t1 = Some i1 ->
        exists i2, get_lyric_index m t2 = Some i2 /\ (i1 <= i2)%nat)).
Proof.
  intros Hasc. pose proof (ascending_strongly _ Hasc) as Hs.
  pose proof (proj2 Hasc) as Htimed.
  assert (forall t e, get_lyric_at m t = Some e ->
            exists i, leading t (entries m) = S i /\ entries m !! i = Some e)
    as Hat.
  { intros t e. unfold get_lyric_at. rewrite get_lyric_index_leading.
    destruct (leading t (entries m)) as [|i]; simpl; [discriminate|]. eauto. }
  split; [|split].
  - intros t e He. destruct (Hat t e He) as (i & Hk & Hi).
    exists i. rewrite get_lyric_index_leading, Hk. split; [reflexivity|].
    split; [assumption|].
    assert (fle (time e) (Fin t)) as Het
      by (apply (leading_within t (entries m) i); [assumption|lia|assumption]).
    split; [assumption|].
    intros j e' Hj Hle.
    pose proof (leading_covers t _ j e' Hs Hj Hle) as Hlt.
    assert (j <= i)%nat as Hji by lia. split; [assumption|].
    eapply sorted_lookup_le; eauto.
  - intros t. unfold get_lyric_at. rewrite get_lyric_index_leading.
    destruct (entries m) as [|e0 l] eqn:El; simpl.
    + split; auto.
    + destruct (fltb (Fin t) (time e0)) eqn:E; simpl.
      * split; [|reflexivity]. intros _. right. exists e0. split; [reflexivity|].
        exact E.
      * pose proof (leading_le_length t l) as Hlen.
        destruct (lookup_lt_is_Some_2 (e0 :: l) (leading t l)) as [e He];
          [simpl; lia|].
        rewrite He. split; [discriminate|].
        intros [Hnil|(e1 & Hh & Hlt)]; [discriminate|].
        injection Hh as <-. unfold flt in Hlt. congruence.
  - intros t1 t2 _ Hlt. split.
    + intros e2 He. destruct (Hat t2 e2 He) as (i & Hk & Hi).
      apply fle_not_flt.
      apply (leading_within t2 (entries m) i); [assumption|lia|assumption].
    + intros i1. rewrite !get_lyric_index_leading.
      pose proof (leading_mono t1 t2 (entries m) (Qlt_le_weak _ _ Hlt)) as Hm.
      destruct (leading t1 (entries m)) as [|k1]; simpl; [discriminate|].
      intros [= <-].
      destruct (leading t2 (entries m)) as [|k2]; simpl; [lia|].
      exists k2. split; [reflexivity|lia].
Qed.

(** *** The constructor sorts *)

Lemma insert_by_time_perm e l : insert_by_time e l ≡ₚ e :: l.
Proof.
  induction l as [|x l IH]; simpl; [reflexivity|].
  destruct (fltb (time x) (time e)); [|reflexivity].
  rewrite IH. apply Permutation_swap.
Qed.

Lemma sorted_by_time_perm l : sorted_by_time l ≡ₚ l.
Proof.
  induction l as [|x l IH]; simpl; [reflexivity|].
  rewrite insert_by_time_perm. now rewrite IH.
Qed.

(** The stable sort is one of the functions [sorted] may be. *)
Lemma sorted_by_time_sorts : sorts sorted_by_time.
Proof. split; [apply sorted_by_time_perm|reflexivity]. Qed.

Lemma sorts_elem_of sorted l e : sorts sorted -> e ∈ sorted l <-> e ∈ l.
Proof. intros [Hp _]. now rewrite Hp. Qed.

Lemma insert_by_time_ascending e l :
  timed e -> ascending l -> ascending (insert_by_time e l).
Proof.
  intros He [Hs Ht]. split.
  - induction l as [|x l IH]; simpl.
    + repeat constructor.
    + apply Forall_cons in Ht as [Htx Ht].
      destruct (fltb (time x) (time e)) eqn:E.
      * inversion Hs as [|? ? Hl Hhd]; subst. constructor; [auto|].
        destruct l as [|y l]; simpl.
        -- constructor. now apply flt_fle.
        -- destruct (fltb (time y) (time e)).
           ++ constructor. now inversion Hhd.
           ++ constructor. now apply flt_fle.
      * constructor; [assumption|]. constructor. now apply fltb_ge.
  - rewrite Forall_forall in *. intros y Hy.
    rewrite insert_by_time_perm in Hy.
    apply elem_of_cons in Hy as [->|Hy]; auto.
Qed.

Lemma sorted_by_time_ascending l : Forall timed l -> ascending (sorted_by_time l).
Proof.
  induction 1 as [|x l Hx Hl IH]; simpl; [split; constructor|].
  now apply insert_by_time_ascending.
Qed.

(** The constructor leaves the entries ascending when no time is NaN. *)
Lemma LyricMap_init_ascending sorted es d f :
  sorts sorted -> Forall timed es ->
  ascending (entries (LyricMap_init sorted es d f)).
Proof.
  intros [_ Hs] Ht. simpl. rewrite (Hs es Ht). now apply sorted_by_time_ascending.
Qed.

Lemma demo_entries_timed : Forall timed demo_entries.
Proof. repeat constructor; discriminate. Qed.

Lemma demo_map_ascending : ascending (entries demo_map).
Proof.
  apply LyricMap_init_ascending; [apply sorted_by_time_sorts|apply demo_entries_timed].
Qed.

(** *** Scene triggers *)

Lemma scan_trigger_newest r t last :
  scan_trigger r t last =
  match newest t r with
  | Some e => if fltb last (time e) then Some e else None
  | None => None
  end.
Proof.
  induction r as [|e r IH]; simpl; [reflexivity|].
  unfold crossed. destruct (truthy (scene e) && fleb (time e) (Fin t)); auto.
Qed.

Lemma newest_snoc t r x :
  newest t (r ++ [x]) =
  match newest t r with
  | Some e => Some e
  | None => if crossed t x then Some x else None
  end.
Proof.
  induction r as [|e r IH]; simpl; [reflexivity|].
  destruct (crossed t e); auto.
Qed.

Lemma newest_none t (l : list LyricEntry) :
  newest t (rev l) = None -> forall e, e ∈ l -> crossed t e = false.
Proof.
  induction l as [|x l IH]; simpl; intros H e He.
  - inversion He.
  - rewrite newest_snoc in H.
    destruct (newest t (rev l)) eqn:N; [discriminate|].
    destruct (crossed t x) eqn:C; [discriminate|].
    apply elem_of_cons in He as [->|He]; auto.
Qed.

Lemma crossed_true t e :
  crossed t e = true <-> truthy (scene e) = true /\ fle (time e) (Fin t).
Proof. unfold crossed, fle. rewrite andb_true_iff. tauto. Qed.

Lemma newest_some t (l : list LyricEntry) e :
  StronglySorted by_time l -> newest t (rev l) = Some e ->
  e ∈ l /\ crossed t e = true /\
  forall e', e' ∈ l -> crossed t e' = true -> fle (time e') (time e).
Proof.
  intros Hs. induction Hs as [|x l Hs IH Hx]; simpl; intros H; [discriminate|].
  rewrite newest_snoc in H. rewrite Forall_forall in Hx.
  destruct (newest t (rev l)) as [e0|] eqn:N.
  - injection H as ->. destruct (IH eq_refl) as (Hin & Hc & Hmax).
    split; [now apply elem_of_cons; right|]. split; [assumption|].
    intros e' He' Hc'. apply elem_of_cons in He' as [->|He']; auto.
    now apply Hx.
  - destruct (crossed t x) eqn:C; [|discriminate]. injection H as <-.
    split; [apply elem_of_cons; now left|]. split; [assumption|].
    intros e' He' Hc'. apply elem_of_cons in He' as [->|He'].
    + apply fle_refl. apply crossed_true in C as [_ C].
      now apply (fle_number _ _ C).
    + rewrite (newest_none t l N e' He') in Hc'. discriminate.
Qed.

Lemma newest_latest m t e :
  ascending (entries m) -> newest t (rev (entries m)) = Some e ->
  latest_trigger m t e.
Proof.
  intros Hs H. apply ascending_strongly in Hs.
  destruct (newest_some t _ e Hs H) as (Hin & Hc & Hmax).
  apply crossed_true in Hc as [Htr Hle].
  repeat split; auto.
  intros e' He' Htr' Hle'. apply Hmax; auto. apply crossed_true. auto.
Qed.

Lemma get_scene_trigger_entries m t :
  entries (snd (get_scene_trigger m t)) = entries m.
Proof.
  unfold get_scene_trigger.
  destruct (scan_trigger (rev (entries m)) t (cursor m)); reflexivity.
Qed.

(** One query, by cases on what the loop finds. *)
Lemma get_scene_trigger_cases m t :
  ascending (entries m) ->
  (exists e, latest_trigger m t e /\ flt (cursor m) (time e) /\
     get_scene_trigger m t = (scene e, set_cursor (time e) m)) \/
  ((no_trigger m t \/
    exists e, latest_trigger m t e /\ ~ flt (cursor m) (time e) /\
      (cursor m <> NaN -> fle (time e) (cursor m))) /\
     get_scene_trigger m t = (None, set_cursor (cursor m) m)).
Proof.
  intros Hs. unfold get_scene_trigger. rewrite scan_trigger_newest.
  destruct (newest t (rev (entries m))) as [e|] eqn:N.
  - pose proof (newest_latest m t e Hs N) as HL.
    destruct (fltb (cursor m) (time e)) eqn:E.
    + left. exists e. auto.
    + right. split; [|reflexivity]. right. exists e. split; [assumption|].
      split; [unfold flt; congruence|].
      intros Hc. apply fltb_ge; auto.
      destruct HL as (_ & _ & Hle & _). now apply (fle_number _ _ Hle).
  - right. split; [|reflexivity]. left. intros e He Htr Hle.
    pose proof (newest_none t _ N e He) as C.
    assert (crossed t e = true) by (apply crossed_true; auto). congruence.
Qed.

Lemma latest_trigger_time m t e e' :
  latest_trigger m t e -> latest_trigger m t e' -> feq (time e) (time e').
Proof.
  intros (H1 & H2 & H3 & H4) (H1' & H2' & H3' & H4').
  apply feq_fle; auto.
Qed.

Lemma fired_above ts : forall m x, x ∈ fired m ts -> flt (cursor m) x.
Proof.
  induction ts as [|t ts IH]; simpl; intros m x Hx; [inversion Hx|].
  unfold get_scene_trigger in Hx. rewrite scan_trigger_newest in Hx.
  destruct (newest t (rev (entries m))) as [e|].
  - destruct (fltb (cursor m) (time e)) eqn:E.
    + assert (forall y, y ∈ time e :: fired (set_cursor (time e) m) ts ->
                flt (cursor m) y) as Hall.
      { intros y Hy. apply elem_of_cons in Hy as [->|Hy]; [assumption|].
        apply IH in Hy. simpl in Hy. eapply flt_trans; eassumption. }
      destruct (scene e); apply Hall; [exact Hx|].
      apply elem_of_cons; now right.
    + apply IH in Hx. exact Hx.
  - apply IH in Hx. exact Hx.
Qed.

Lemma filter_eq_above T (l : list PyFloat) :
  (forall x, x ∈ l -> flt T x) ->
  filter (fun x => feqb x T = true) l = [].
Proof.
  induction l as [|x l IH]; intros H; [reflexivity|].
  rewrite filter_cons. destruct (decide (feqb x T = true)) as [E|E].
  - exfalso. apply feq_fle in E as [E _].
    assert (flt T x) as Hlt by (apply H; apply elem_of_cons; now left).
    revert Hlt. now apply fle_not_flt.
  - apply IH. intros y Hy. apply H. apply elem_of_cons; now right.
Qed.

Lemma times_fired_at_most_once T ts : forall m, (times_fired T m ts <= 1)%nat.
Proof.
  unfold times_fired. induction ts as [|t ts IH]; intros m; simpl; [lia|].
  destruct (get_scene_trigger m t) as [r m'] eqn:G.
  destruct r as [s|]; [|apply IH].
  rewrite filter_cons. destruct (decide (feqb (cursor m') (Fin T) = true)) as [E|E].
  - rewrite filter_eq_above; [simpl; lia|].
    intros x Hx. apply fired_above in Hx. apply feq_fle in E as [_ E].
    eapply fle_flt_trans; eassumption.
  - apply IH.
Qed.

Lemma Sorted_Qle_head t (ts : list Q) x :
  Sorted Qle (t :: ts) -> x ∈ ts -> t <= x.
Proof.
  intros Hs Hx. apply Sorted_StronglySorted in Hs; [|intros a b c; apply Qle_trans].
  inversion Hs as [|? ? _ Hall]; subst. rewrite Forall_forall in Hall. auto.
Qed.

Lemma fired_when_covered T ts :
  Sorted Qle ts ->
  forall m, ascending (entries m) -> flt (cursor m) (Fin T) ->
  (exists e, e ∈ entries m /\ truthy (scene e) = true /\ feq (time e) (Fin T)) ->
  (exists t, t ∈ ts /\ T <= t /\
     forall e, e ∈ entries m -> truthy (scene e) = true -> fle (time e) (Fin t) ->
       fle (time e) (Fin T)) ->
  exists x, x ∈ fired m ts /\ feq x (Fin T).
Proof.
  induction ts as [|t ts IH]; intros Hts m Hs Hc (eT & HeT & HtrT & HtT) (q & Hq & HTq & Hcov).
  - inversion Hq.
  - assert (Sorted Qle ts) as Hts' by (now inversion Hts).
    apply feq_fle in HtT as [HtT1 HtT2]. apply fle_Fin in HTq.
    simpl.
    destruct (get_scene_trigger_cases m t Hs) as [(e & HL & Hlt & G)|(Hno & G)];
      rewrite G.
    + destruct HL as (Hin & Htr & Hle & Hmax).
      destruct (scene e) as [s|] eqn:Sc; [|discriminate]. simpl.
      assert (t <= q) as Htq.
      { apply elem_of_cons in Hq as [->|Hq]; [apply Qle_refl|].
        eapply Sorted_Qle_head; eauto. }
      apply fle_Fin in Htq.
      assert (fle (time e) (Fin T)) as HeT'.
      { apply Hcov; auto. rewrite Sc; exact Htr. eapply fle_trans; eassumption. }
      apply fle_lteq in HeT' as [Hlt'|Heq].
      * destruct (IH Hts' (set_cursor (time e) m)) as (x & Hx & Hxe); simpl; auto.
        -- exists eT. repeat split; auto. apply feq_fle; auto.
        -- apply elem_of_cons in Hq as [->|Hq].
           ++ exfalso. assert (fle (time eT) (time e)) as Hm.
              { apply Hmax; auto. eapply fle_trans; eassumption. }
              revert Hlt'. apply fle_not_flt. exact (fle_trans _ _ _ HtT2 Hm).
           ++ exists q. repeat split; auto. now apply fle_Fin.
        -- exists x. split; [apply elem_of_cons; now right|assumption].
      * exists (time e). split; [apply elem_of_cons; now left|assumption].
    + apply elem_of_cons in Hq as [->|Hq].
      * exfalso. destruct Hno as [Hno|(e & HL & Hnlt & Hle)].
        -- apply (Hno eT); auto. eapply fle_trans; eassumption.
        -- destruct HL as (Hin & Htr & Hle' & Hmax).
           assert (fle (time eT) (time e)) as Hm
             by (apply Hmax; auto; eapply fle_trans; eassumption).
           apply Hnlt. eapply flt_fle_trans; [exact Hc|].
           exact (fle_trans _ _ _ HtT2 Hm).
      * destruct (IH Hts' (set_cursor (cursor m) m)) as (x & Hx & Hxe); simpl; auto.
        -- exists eT. repeat split; auto. apply feq_fle; auto.
        -- exists q. repeat split; auto. now apply fle_Fin.
        -- exists x. split; assumption.
Qed.

Lemma times_fired_exactly_once m ts T :
  ascending (entries m) -> Sorted Qle ts -> flt (cursor m) (Fin T) ->
  (exists e, e ∈ entries m /\ truthy (scene e) = true /\ feq (time e) (Fin T)) ->
  (exists t, t ∈ ts /\ T <= t /\
     forall e, e ∈ entries m -> truthy (scene e) = true -> fle (time e) (Fin t) ->
       fle (time e) (Fin T)) ->
  times_fired T m ts = 1%nat.
Proof.
  intros Hs Hts Hc HT Hcov.
  pose proof (times_fired_at_most_once T ts m) as Hle.
  destruct (fired_when_covered T ts Hts m Hs Hc HT Hcov) as (x & Hx & Hxe).
  assert (x ∈ filter (fun y => feqb y (Fin T) = true) (fired m ts)) as Hf.
  { apply list_elem_of_filter. split; assumption. }
  unfold times_fired in *.
  destruct (filter (fun y => feqb y (Fin T) = true) (fired m ts)) as [|y l];
    [inversion Hf|simpl in *; lia].
Qed.

(** C2. On a cue map whose entries ascend by time, a query at [t] returns
    the scene of an entry with a scene trigger and the greatest time not
    after [t] exactly when that time is strictly above the cursor, and then
    moves the cursor to that time; otherwise (the time is not above the
    cursor, that is, at or below it whenever the cursor is a number) it
    returns nothing and the cursor keeps its value.  Hence over any sequence
    of queries a trigger time fires at most once, and over a non-decreasing
    sequence a trigger time [T] that has not fired yet (every trigger time
    of a newly built map) fires exactly once if some query falls at or after
    [T] and before the next trigger time. *)
Theorem get_scene_trigger_one_shot (m : LyricMap) :
  ascending (entries m) ->
  (forall t,
     (exists e, latest_trigger m t e /\ flt (cursor m) (time e) /\
        get_scene_trigger m t = (scene e, set_cursor (time e) m)) \/
     ((no_trigger m t \/
       exists e, latest_trigger m t e /\ ~ flt (cursor m) (time e) /\
         (cursor m <> NaN -> fle (time e) (cursor m))) /\
        get_scene_trigger m t = (None, set_cursor (cursor m) m))) /\
  (forall ts T, (times_fired T m ts <= 1)%nat) /\
  (forall ts T,
     Sorted Qle ts ->
     flt (cursor m) (Fin T) ->
     (exists e, e ∈ entries m /\ truthy (scene e) = true /\ feq (time e) (Fin T)) ->
     (exists t, t ∈ ts /\ T <= t /\
        forall e, e ∈ entries m -> truthy (scene e) = true -> fle (time e) (Fin t) ->
          fle (time e) (Fin T)) ->
     times_fired T m ts = 1%nat).
Proof.
  intros Hs. split; [|split].
  - intros t. now apply get_scene_trigger_cases.
  - intros ts T. apply times_fired_at_most_once.
  - intros ts T Hts Hc HT Hcov. now apply times_fired_exactly_once.
Qed.

(** The trigger at time 10 of [demo_map] fires exactly once over the
    queries 0, 5, 10, 12. *)
Lemma get_scene_trigger_one_shot_witness :
  ascending (entries demo_map) /\
  times_fired 10 demo_map [0; 5; 10; 12] = 1%nat.
Proof.
  split; [exact demo_map_ascending|].
  apply (get_scene_trigger_one_shot demo_map demo_map_ascending).
  - repeat constructor; unfold Qle; simpl; lia.
  - reflexivity.
  - exists (mkLyricEntry (Fin 10) "hi" (Some "starfield")).
    split; [|split; reflexivity].
    apply elem_of_cons; right. apply elem_of_cons; left. reflexivity.
  - exists 12. split.
    + do 3 (apply elem_of_cons; right). apply elem_of_cons; left. reflexivity.
    + split; [unfold Qle; simpl; lia|].
      intros e He Htr Hle. cbn in He.
      repeat (apply elem_of_cons in He as [->|He]);
        try reflexivity; try discriminate.
      inversion He.
Defined.

(** The entry [get_lyric_at] gives on [demo_map] is never after the query. *)
Lemma get_lyric_at_greatest_witness :
  ascending (entries demo_map) /\
  forall t e, get_lyric_at demo_map t = Some e -> fle (time e) (Fin t).
Proof.
  split; [exact demo_map_ascending|].
  intros t e He.
  destruct (get_lyric_at_greatest demo_map demo_map_ascending) as (H & _).
  destruct (H t e He) as (i & _ & _ & Hle & _). exact Hle.
Defined.

(** The scenario of the specification: entries at 0 ("intro") and 10
    ("starfield"). *)
Example scenario_lookup :
  let m := LyricMap_init sorted_by_time
             [mkLyricEntry (Fin 0) "" (Some "intro");
              mkLyricEntry (Fin 10) "hi" (Some "starfield")] 20 default_finale_message in
  get_lyric_at m 5 = Some (mkLyricEntry (Fin 0) "" (Some "intro")) /\
  let '(r1, m1) := get_scene_trigger m 0 in
  let '(r2, m2) := get_scene_trigger m1 5 in
  let '(r3, m3) := get_scene_trigger m2 10 in
  (r1, r2, r3) = (Some "intro", None, Some "starfield").
Proof. split; reflexivity. Qed.

(** The cursor of a map the code has built or queried is a number. *)
Lemma cursor_number m t :
  cursor m <> NaN -> cursor (snd (get_scene_trigger m t)) <> NaN.
Proof.
  intros Hc. unfold get_scene_trigger. rewrite scan_trigger_newest.
  destruct (newest t (rev (entries m))) as [e|]; [|exact Hc].
  destruct (fltb (cursor m) (time e)) eqn:E; [|exact Hc].
  simpl. now apply (flt_number _ _ E).
Qed.

(** *** Negative times *)

Lemma constructed_not_negative e : constructed e -> not_negative e.
Proof.
  intros (t & x & s & H). unfold LyricEntry_new in H.
  destruct (fltb t (Fin 0)) eqn:E; [discriminate|].
  injection H as <-. split; simpl.
  - unfold flt. congruence.
  - intros Ht. apply fltb_ge; [exact Ht|discriminate|exact E].
Qed.

(** On a newly built map of constructed entries no trigger time has fired:
    the cursor reads -1 and every time that is a number is at least 0. *)
Lemma fresh_cursor_below sorted es d f e :
  sorts sorted -> Forall constructed es ->
  e ∈ entries (LyricMap_init sorted es d f) -> timed e ->
  flt (cursor (LyricMap_init sorted es d f)) (time e).
Proof.
  intros Hs Hc He Ht. simpl in He. apply (proj1 (sorts_elem_of _ _ _ Hs)) in He.
  rewrite Forall_forall in Hc.
  destruct (constructed_not_negative e (Hc e He)) as [_ H].
  eapply flt_fle_trans; [|exact (H Ht)]. reflexivity.
Qed.

(** So on a newly built map every trigger time that a non-decreasing
    sequence of queries covers fires exactly once. *)
Lemma fresh_map_fires_exactly_once sorted es d f ts e T :
  sorts sorted -> Forall constructed es -> Forall timed es -> Sorted Qle ts ->
  e ∈ es -> truthy (scene e) = true -> time e = Fin T ->
  (exists t, t ∈ ts /\ T <= t /\
     forall e', e' ∈ es -> truthy (scene e') = true -> fle (time e') (Fin t) ->
       fle (time e') (Fin T)) ->
  times_fired T (LyricMap_init sorted es d f) ts = 1%nat.
Proof.
  intros Hs Hc Htimed Hts He Htr HT (t & Ht & Hle & Hcov).
  assert (e ∈ entries (LyricMap_init sorted es d f)) as He'.
  { simpl. now apply (proj2 (sorts_elem_of _ _ _ Hs)). }
  apply times_fired_exactly_once.
  - now apply LyricMap_init_ascending.
  - assumption.
  - rewrite <- HT. apply fresh_cursor_below; auto.
    rewrite Forall_forall in Htimed. auto.
  - exists e. split; [assumption|]. split; [assumption|].
    rewrite HT. apply feq_fle. split; apply fle_refl; discriminate.
  - exists t. split; [assumption|]. split; [assumption|].
    intros e' Hin. apply Hcov. simpl in Hin. now apply (proj1 (sorts_elem_of _ _ _ Hs)) in Hin.
Qed.

Lemma rmap_ok {A B} (f : A -> result B) xs ys :
  rmap f xs = Ok ys -> Forall2 (fun x y => f x = Ok y) xs ys.
Proof.
  revert ys. induction xs as [|x xs IH]; simpl; intros ys H.
  - injection H as <-. constructor.
  - destruct (f x) as [y|] eqn:Fx; simpl in H; [|discriminate].
    destruct (rmap f xs) as [ys'|]; simpl in H; [|discriminate].
    injection H as <-. constructor; auto.
Qed.

Lemma rmap_raise {A B} (f : A -> result B) xs x :
  x ∈ xs -> is_ok (f x) = false -> is_ok (rmap f xs) = false.
Proof.
  induction xs as [|y xs IH]; intros Hx Hf; [inversion Hx|]. simpl.
  destruct (f y) as [b|] eqn:Fy; simpl; [|reflexivity].
  apply elem_of_cons in Hx as [->|Hx]; [rewrite Fy in Hf; discriminate|].
  specialize (IH Hx Hf). destruct (rmap f xs); [discriminate|reflexivity].
Qed.

Lemma entry_of_item_constructed item e :
  entry_of_item item = Ok e -> constructed e.
Proof.
  unfold entry_of_item. destruct (item_time item) as [t|]; [|discriminate].
  destruct (item_text item) as [x|]; [|discriminate].
  intros H. exists t, x, (item_scene item). exact H.
Qed.

Lemma LyricMap_init_entries sorted es d f e :
  sorts sorted -> e ∈ entries (LyricMap_init sorted es d f) <-> e ∈ es.
Proof. intros Hs. simpl. now apply sorts_elem_of. Qed.

Lemma from_json_ok sorted file m :
  from_json sorted file = Ok m ->
  exists data es,
    file = Ok data /\
    rmap entry_of_item (default [] (src_lyrics data)) = Ok es /\
    m = LyricMap_init sorted es (default 180 (src_duration_seconds data))
          (default default_finale_message (src_finale_message data)).
Proof.
  unfold from_json. destruct file as [data|]; simpl; [|discriminate].
  destruct (rmap entry_of_item (default [] (src_lyrics data))) as [es|] eqn:R;
    simpl; [|discriminate].
  intros H. exists data, es. split; [reflexivity|]. split; [exact R|].
  cbv [LyricMap_call bind_positional bind_keywords rbind LyricMap_params
       existsb assoc app negb String.eqb Ascii.eqb Bool.eqb orb default] in H.
  now injection H as <-.
Qed.

(** C10 (corrected). Constructing a [LyricEntry] with a negative time raises
    [ValueError]; hence no entry of a [LyricMap] built from constructed
    entries, or of one loaded by [from_json], has a time below 0, and a
    document holding a record with a negative time does not load.  The time
    of an entry is at least 0 only if it is a number: the constructor
    accepts NaN, for which [time < 0] is false. *)
Theorem negative_time_never_enters :
  (forall t x s, flt t (Fin 0) ->
     LyricEntry_new t x s = Raise (ValueError "Lyric time cannot be negative")) /\
  (forall sorted es d f, sorts sorted -> Forall constructed es ->
     forall e, e ∈ entries (LyricMap_init sorted es d f) ->
       ~ flt (time e) (Fin 0) /\ (time e <> NaN -> fle (Fin 0) (time e))) /\
  (forall sorted file m, sorts sorted -> from_json sorted file = Ok m ->
     forall e, e ∈ entries m ->
       ~ flt (time e) (Fin 0) /\ (time e <> NaN -> fle (Fin 0) (time e))) /\
  (forall sorted data items item t,
     src_lyrics data = Some items -> item ∈ items ->
     item_time item = Some t -> flt t (Fin 0) ->
     is_ok (from_json sorted (Ok data)) = false) /\
  (forall x s, LyricEntry_new NaN x s = Ok (mkLyricEntry NaN x s)).
Proof.
  split; [|split; [|split; [|split]]].
  - intros t x s Ht. unfold LyricEntry_new. unfold flt in Ht. now rewrite Ht.
  - intros sorted es d f Hs Hc e He. apply (proj1 (LyricMap_init_entries _ _ _ _ _ Hs)) in He.
    rewrite Forall_forall in Hc. apply constructed_not_negative; auto.
  - intros sorted file m Hs H e He.
    destruct (from_json_ok sorted file m H) as (data & es & _ & Hes & ->).
    apply (proj1 (LyricMap_init_entries _ _ _ _ _ Hs)) in He. apply rmap_ok in Hes.
    apply list_elem_of_lookup in He as [i Hi].
    destruct (Forall2_lookup_r _ _ _ _ _ Hes Hi) as (item & _ & Hitem).
    apply constructed_not_negative. eapply entry_of_item_constructed; eauto.
  - intros sorted data items item t Hl Hin Ht Hneg. unfold from_json. simpl.
    rewrite Hl. simpl.
    assert (is_ok (entry_of_item item) = false) as Hbad.
    { unfold entry_of_item. rewrite Ht.
      destruct (item_text item); [|reflexivity].
      unfold LyricEntry_new. unfold flt in Hneg. now rewrite Hneg. }
    pose proof (rmap_raise entry_of_item items item Hin Hbad) as Hr.
    destruct (rmap entry_of_item items); [discriminate|reflexivity].
  - reflexivity.
Qed.

(** A document that loads, and its entries (sorted) are not negative. *)
Lemma negative_time_never_enters_witness :
  exists m, from_json sorted_by_time (Ok demo_source) = Ok m /\
    entries m = [mkLyricEntry (Fin 0) "" None;
                 mkLyricEntry (Fin 10) "hi" (Some "starfield")] /\
    forall e, e ∈ entries m -> ~ flt (time e) (Fin 0).
Proof.
  eexists. split; [reflexivity|]. split; [reflexivity|].
  destruct negative_time_never_enters as (_ & _ & H & _).
  intros e He.
  apply (H sorted_by_time (Ok demo_source) _ sorted_by_time_sorts eq_refl e He).
Defined.

(** A time of at least 0 is more than the check gives: the document whose
    one record has the time NaN loads, the constructor having accepted the
    entry, and the time of that entry is not at least 0 (nor below 0, nor
    equal to itself). *)
Lemma nan_time_enters :
  exists m e,
    from_json sorted_by_time (Ok nan_source) = Ok m /\
    entries m = [e] /\
    LyricEntry_new NaN "la" None = Ok e /\
    fleb (Fin 0) (time e) = false /\
    fltb (time e) (Fin 0) = false /\
    feqb (time e) (time e) = false.
Proof.
  exists (LyricMap_init sorted_by_time [mkLyricEntry NaN "la" None] 180
            default_finale_message), (mkLyricEntry NaN "la" None).
  repeat split; reflexivity.
Qed.

End LyricFacts.

(** ** Asset loading *)

Module MainFacts.
Import LyricSync Main MainSpec.

(** Whenever the lyrics path does not exist, the call of [LyricMap] in the
    [else] branch fails to bind its keyword [lyrics]. *)
Lemma load_assets_missing sorted fs lyrics_path audio_path :
  path_exists fs lyrics_path = false ->
  load_assets sorted fs lyrics_path audio_path =
  Raise (TypeError "got an unexpected keyword argument 'lyrics'").
Proof. intros H. unfold load_assets. rewrite H. reflexivity. Qed.

(** The sibling path: with the file present, [from_json] calls [LyricMap]
    with the parameter names of [__init__] and a map comes back. *)
Example load_assets_present :
  load_assets sorted_by_time lyrics_only_fs "assets/lyrics.json" "assets/audio.mp3" =
  Ok (Some (LyricMap_init sorted_by_time
              [mkLyricEntry (Fin 10) "hi" (Some "starfield");
               mkLyricEntry (Fin 0) "" None]
              20 default_finale_message), None).
Proof. reflexivity. Qed.

(** C8 (the code departs from the claim). With the cue-source file missing,
    [load_assets] raises [TypeError] instead of returning an empty cue map
    with the default finale message: it passes the keyword [lyrics], and
    [LyricMap.__init__] names that parameter [entries]. *)
Theorem load_assets_missing_file_raises (sorted : Sorter) :
  load_assets sorted empty_fs "assets/lyrics.json" "assets/audio.mp3" =
  Raise (TypeError "got an unexpected keyword argument 'lyrics'").
Proof. reflexivity. Qed.

End MainFacts.

(** ** Binary64 arithmetic: signs and the comparison with 1

    Addition and division are those of [SpecFloat], which the primitive
    operations are specified to follow ([FloatAxioms]). *)

Module FloatFacts.
Local Open Scope Z_scope.

Lemma shr_1_nonneg mrs : 0 <= shr_m mrs -> 0 <= shr_m (shr_1 mrs).
Proof. destruct mrs as [m r s]. destruct m as [|[p|p|]|[p|p|]]; simpl; lia. Qed.

Lemma iter_pos_shr_1_nonneg p :
  forall mrs, 0 <= shr_m mrs -> 0 <= shr_m (@SpecFloat.iter_pos shr_record shr_1 p mrs).
Proof. induction p; intros; simpl; auto using shr_1_nonneg. Qed.

Lemma shr_nonneg mrs e n : 0 <= shr_m mrs -> 0 <= shr_m (fst (shr mrs e n)).
Proof. destruct n; simpl; auto using iter_pos_shr_1_nonneg. Qed.

Lemma shr_record_of_loc_m m l : shr_m (shr_record_of_loc m l) = m.
Proof. destruct l as [|[]]; reflexivity. Qed.

Lemma shr_fexp_nonneg prec emax m e l :
  0 <= m -> 0 <= shr_m (fst (shr_fexp prec emax m e l)).
Proof. intros. unfold shr_fexp. apply shr_nonneg. now rewrite shr_record_of_loc_m. Qed.

Lemma round_nearest_even_nonneg m l : 0 <= m -> 0 <= round_nearest_even m l.
Proof. destruct l as [|[]]; simpl; try lia. destruct (Z.even m); lia. Qed.

(** Rounding a non-negative mantissa with the sign bit clear gives zero, a
    positive number or +inf. *)
Lemma binary_round_aux_nonneg prec emax m e l :
  0 <= m -> sf_nonneg (binary_round_aux prec emax false m e l) = true.
Proof.
  intros Hm. unfold binary_round_aux.
  pose proof (shr_fexp_nonneg prec emax m e l Hm) as H1.
  destruct (shr_fexp prec emax m e l) as [mrs' e']. simpl in H1.
  pose proof (shr_fexp_nonneg prec emax _ e' loc_Exact
                (round_nearest_even_nonneg _ (loc_of_shr_record mrs') H1)) as H2.
  destruct (shr_fexp prec emax (round_nearest_even _ _) e' loc_Exact) as [mrs'' e''].
  simpl in H2.
  destruct (shr_m mrs''); [reflexivity| |lia]. destruct (Z.leb _ _); reflexivity.
Qed.

Lemma SFadd_nonneg prec emax x y :
  sf_nonneg x = true -> sf_nonneg y = true ->
  sf_nonneg (SFadd prec emax x y) = true.
Proof.
  destruct x as [sx|sx| |sx mx ex], y as [sy|sy| |sy my ey];
    try destruct sx; try destruct sy; simpl; try discriminate; try reflexivity.
  intros _ _. unfold binary_round.
  destruct (shl_align _ _ _). apply binary_round_aux_nonneg. lia.
Qed.

Lemma SFdiv_nonneg prec emax x my ey :
  sf_nonneg x = true ->
  sf_nonneg (SFdiv prec emax x (S754_finite false my ey)) = true.
Proof.
  destruct x as [sx|sx| |sx mx ex]; try destruct sx; simpl;
    try discriminate; try reflexivity.
  intros _. unfold SFdiv_core_binary.
  set (m' := match _ with Zpos _ => _ | Z0 => _ | Zneg _ => _ end).
  assert (0 <= m') as Hm'.
  { unfold m'. destruct (_ - _ - _); try lia. apply Z.shiftl_nonneg. lia. }
  pose proof (Z.div_pos m' (Zpos my) Hm' ltac:(lia)) as Hq.
  unfold Z.div in Hq. destruct (Z.div_eucl m' (Zpos my)) as [q r].
  apply binary_round_aux_nonneg. exact Hq.
Qed.

Local Open Scope float_scope.

Lemma leb_zero x : (0 <=? x) = sf_nonneg (Prim2SF x).
Proof.
  rewrite leb_spec. change (Prim2SF 0) with (S754_zero false).
  destruct (Prim2SF x) as [s|s| |s m e]; try destruct s; reflexivity.
Qed.

(** The sum of two floats that are at least 0 is at least 0. *)
Lemma add_nonneg a b : (0 <=? a) = true -> (0 <=? b) = true -> (0 <=? a + b) = true.
Proof. rewrite !leb_zero, add_spec. apply SFadd_nonneg. Qed.

(** A float that is at least 0, divided by 0.5, is at least 0. *)
Lemma div_half_nonneg a : (0 <=? a) = true -> (0 <=? a / 0.5) = true.
Proof.
  rewrite !leb_zero, div_spec.
  change (Prim2SF 0.5) with (S754_finite false 4503599627370496 (-53)).
  apply SFdiv_nonneg.
Qed.


End FloatFacts.

(** ** The Director *)

Module DirectorFacts.
Import LyricSync Scenes Director DirectorSpec.
Local Open Scope py_scope.

(** A completion with a registered name pending and no incoming object:
    it never raises, and leaves [completed]. *)
Lemma complete_transition_spec w n cls :
  wired w ->
  next_scene_name (director w) = Some n ->
  scenes (director w) !! n = Some cls ->
  _complete_transition w = (Ok tt, completed w n cls).
Proof.
  intros [Hno _ Hfin _ _] Hn Hcls.
  assert (finale_arg (director w) n <> None -> accepts_finale_message cls = true)
    as Hacc.
  { unfold finale_arg. destruct (lyric_map (director w)); [|congruence].
    destruct (String.eqb n "finale") eqn:E; [|congruence].
    apply String.eqb_eq in E. subst n. intros _. now apply Hfin. }
  unfold completed, incoming, finale_arg in *.
  cbv [_complete_transition bind self assign call ret raise new_id time_time
       when_scene instantiate].
  cbn [director trace next_id wall_clock fst snd].
  rewrite Hno, Hn, Hcls.
  destruct w as [d tr nid clk]; cbn [director trace next_id wall_clock] in *.
  destruct (current_scene d) as [old|] eqn:Hcur;
    destruct (lyric_map d) as [lm|] eqn:Hlm;
    cbn [director trace next_id wall_clock exit_events];
    try rewrite Hcur;
    try (destruct (String.eqb n "finale") eqn:E;
         [rewrite Hacc by congruence|]);
    cbn [negb director trace next_id wall_clock scene_id];
    unfold exit_events; rewrite ?Hcur;
    repeat rewrite <- app_assoc; reflexivity.
Qed.

(** Name the fields of a world; unfold a method down to its assignments
    and scene calls; bound the identities in a list of events. *)
Ltac open_world w :=
  destruct w as [[lm sc cur nxt al inc st sst] tr nid clk];
  cbn [director trace next_id wall_clock lyric_map scenes current_scene
       next_scene_name transition_alpha transitioning_scene state
       scene_start_time] in *.

Ltac run_method :=
  cbv [perform register_scene transition_to update_scenes render_scenes
       check_scene_triggers update_lyric monitor_performance
       bind self assign call ret raise new_id time_time when_scene step upd logged];
  cbn [director trace next_id wall_clock lyric_map scenes current_scene
       next_scene_name transition_alpha transitioning_scene state
       scene_start_time fst snd
       set_lyric_map set_scenes set_current_scene set_next_scene_name
       set_transition_alpha set_transitioning_scene set_state
       set_scene_start_time].

Ltac ids_below :=
  repeat first [apply List.Forall_nil | apply List.Forall_cons; [cbn|]].

(** A tick without an incoming object, by cases on the pending name. *)
Lemma update_scenes_spec w dt ctx :
  transitioning_scene (director w) = None ->
  update_scenes dt ctx w =
  match next_scene_name (director w) with
  | None => (Ok tt, match current_scene (director w) with
                    | Some _ => ticked w dt ctx
                    | None => w
                    end)
  | Some _ =>
      let w2 := advanced (match current_scene (director w) with
                          | Some _ => ticked w dt ctx
                          | None => w
                          end) dt in
      if (1 <=? transition_alpha (director w) + dt / FADE_DURATION)%float
      then _complete_transition w2
      else (Ok tt, w2)
  end.
Proof.
  intros Hno. open_world w. subst inc.
  unfold ticked, advanced, update_events. run_method.
  destruct cur as [s|], nxt as [n|]; cbv zeta; run_method;
    try destruct (PrimFloat.leb _ _); reflexivity.
Qed.

Lemma wired_advanced w dt : wired w -> wired (advanced w dt).
Proof. intros [? ? ? ? ?]. open_world w. constructor; assumption. Qed.

Lemma wired_ticked w dt ctx : wired w -> wired (ticked w dt ctx).
Proof.
  intros [H1 H2 H3 H4 H5]. open_world w. unfold ticked, update_events, logged.
  constructor; cbn; auto.
  destruct cur as [s|]; cbn; [|now rewrite app_nil_r].
  apply Forall_app; split; [assumption|]. ids_below. auto.
Qed.

Lemma wired_completed w n cls :
  wired w -> wired (completed w n cls).
Proof.
  intros [H1 H2 H3 H4 H5]. open_world w. unfold completed, incoming, exit_events.
  constructor; cbn; auto.
  - intros ? [=].
  - apply Forall_app; split.
    + eapply Forall_impl; [exact H4|]. cbn. intros; lia.
    + destruct cur as [old|]; [pose proof (H5 old eq_refl)|]; ids_below; lia.
  - intros s [= <-]. cbn. lia.
Qed.

Lemma alpha_step a dt :
  (0 <=? a)%float = true -> (0 <=? dt)%float = true ->
  (0 <=? a + dt / FADE_DURATION)%float = true.
Proof.
  intros Ha Hdt. unfold FADE_DURATION.
  apply FloatFacts.add_nonneg; [assumption|]. now apply FloatFacts.div_half_nonneg.
Qed.

Lemma alpha_zero : (0 <=? 0)%float = true /\ (1 <=? 0)%float = false.
Proof. split; reflexivity. Qed.

Lemma budget_floor b :
  (MIN_PARTICLE_BUDGET <= Z.max MIN_PARTICLE_BUDGET (py_int (inject_Z b * 0.75)))%Z.
Proof. apply Z.le_max_l. Qed.

(** Every valid call keeps the invariant. *)
Lemma step_inv c w : valid_call c -> inv w -> inv (step w c).
Proof.
  intros Hv [Hw [Ha0 Ha1] Hb].
  destruct c as [rname rcls|scene_name|dt context|console| |time|time|frame_time|time|now];
    cbn [valid_call] in Hv.
  - (* register_scene *)
    destruct Hw as [H1 H2 H3 H4 H5]. open_world w. run_method.
    repeat constructor; cbn; auto.
    + intros n Hn. apply lookup_insert_is_Some'. right. auto.
    + intros cls0. destruct (decide (rname = "finale")) as [->|Hne].
      * rewrite lookup_insert_eq. intros [= <-]. auto.
      * rewrite lookup_insert_ne by assumption. auto.
  - (* transition_to *)
    destruct Hw as [H1 H2 H3 H4 H5]. open_world w. run_method.
    destruct (sc !! scene_name) as [cls|] eqn:E; cbn.
    + repeat constructor; cbn; auto.
      * intros n [= <-]. rewrite E. eauto.
    + repeat constructor; cbn; auto.
  - (* update_scenes *)
    unfold step. cbn [perform].
    rewrite update_scenes_spec by apply Hw.
    set (w1 := match current_scene (director w) with
               | Some _ => ticked w dt context
               | None => w
               end).
    assert (wired w1) as Hw1.
    { unfold w1. destruct (current_scene (director w)); [now apply wired_ticked|assumption]. }
    assert (director w1 = director w) as Hd1.
    { unfold w1. destruct (current_scene (director w)); reflexivity. }
    destruct (next_scene_name (director w)) as [n|] eqn:Hn; cbn [snd].
    + cbv zeta.
      destruct (1 <=? transition_alpha (director w) + dt / FADE_DURATION)%float eqn:E.
      * destruct (wired_pending _ Hw n Hn) as [cls Hcls].
        rewrite (complete_transition_spec _ n cls);
          [|now apply wired_advanced|cbn; now rewrite Hd1|cbn; now rewrite Hd1].
        cbn [snd]. constructor.
        -- apply wired_completed. now apply wired_advanced.
        -- exact alpha_zero.
        -- cbn. now rewrite Hd1.
      * cbn [snd]. constructor.
        -- now apply wired_advanced.
        -- cbn. rewrite Hd1. split; [now apply alpha_step|exact E].
        -- cbn. now rewrite Hd1.
    + constructor; [assumption|now rewrite Hd1|now rewrite Hd1].
  - (* render_scenes *)
    destruct Hw as [H1 H2 H3 H4 H5]. open_world w. run_method. subst inc.
    destruct cur as [s|]; cbn; repeat constructor; cbn; auto.
    apply Forall_app; split; [assumption|]. ids_below. auto.
  - (* _complete_transition *)
    unfold step. cbn [perform].
    destruct (next_scene_name (director w)) as [n|] eqn:Hn.
    + destruct (wired_pending _ Hw n Hn) as [cls Hcls].
      rewrite (complete_transition_spec _ n cls) by assumption.
      cbn [snd]. constructor.
      * now apply wired_completed.
      * exact alpha_zero.
      * exact Hb.
    + destruct Hw as [H1 H2 H3 H4 H5]. open_world w. subst inc nxt.
      cbv [_complete_transition]. run_method.
      repeat constructor; cbn; auto.
  - (* check_scene_triggers *)
    destruct Hw as [H1 H2 H3 H4 H5]. open_world w. run_method.
    destruct lm as [m|]; [|repeat constructor; cbn; auto].
    destruct (get_scene_trigger m time) as [r m'].
    run_method. destruct r as [n|]; [|repeat constructor; cbn; auto].
    destruct (truthy (Some n) && negb (bool_decide (Some n = get_current_scene_name _)));
      [|repeat constructor; cbn; auto].
    run_method.
    destruct (sc !! n) as [cls|] eqn:E; cbn; repeat constructor; cbn; auto.
    intros n' [= <-]. rewrite E. eauto.
  - (* update_lyric *)
    destruct Hw as [H1 H2 H3 H4 H5]. open_world w. run_method.
    destruct lm as [m|]; repeat constructor; cbn; auto.
  - (* monitor_performance *)
    destruct Hw as [H1 H2 H3 H4 H5]. open_world w. run_method.
    destruct (Qltb 0 frame_time), (Qltb (FRAME_TIME * LAG_THRESHOLD_MULTIPLIER) frame_time);
      cbn; repeat constructor; cbn; auto; apply budget_floor.
  - (* state.current_time = t *)
    destruct Hw as [H1 H2 H3 H4 H5]. open_world w. run_method.
    repeat constructor; cbn; auto.
  - (* the clock *)
    destruct Hw as [H1 H2 H3 H4 H5]. open_world w. run_method.
    repeat constructor; cbn; auto.
Qed.

Lemma World_init_inv lm : inv (World_init lm).
Proof.
  repeat constructor; cbn; discriminate.
Qed.

Lemma run_inv cs : forall w, Forall valid_call cs -> inv w -> inv (run cs w).
Proof.
  induction cs as [|c cs IH]; intros w Hv Hi; [exact Hi|].
  inversion Hv; subst. cbn. apply IH; [assumption|]. now apply step_inv.
Qed.

Lemma reachable_inv lm cs :
  Forall valid_call cs -> inv (run cs (World_init lm)).
Proof. intros Hv. apply run_inv; [assumption|apply World_init_inv]. Qed.

(** A tick that completes a transition. *)
Lemma tick_completes w dt ctx n cls :
  wired w ->
  next_scene_name (director w) = Some n ->
  scenes (director w) !! n = Some cls ->
  (1 <=? transition_alpha (director w) + dt / FADE_DURATION)%float = true ->
  update_scenes dt ctx w =
  (Ok tt, completed (advanced (ticked w dt ctx) dt) n cls).
Proof.
  intros Hw Hn Hcls Ha.
  rewrite update_scenes_spec by apply Hw. rewrite Hn. cbv zeta.
  rewrite Ha.
  assert (wired (ticked w dt ctx)) as Hw1 by now apply wired_ticked.
  destruct (current_scene (director w)) eqn:Hcur.
  - now apply complete_transition_spec; [apply wired_advanced|..].
  - rewrite (complete_transition_spec _ n cls);
      [|now apply wired_advanced|assumption|assumption].
    open_world w. cbn in Hcur. subst cur.
    unfold completed, advanced, ticked, incoming, update_events, logged, upd.
    cbn. now rewrite app_nil_r.
Qed.


(** C5. When a transition completes in a Director driven by valid calls,
    the scene calls made are, in order: [exit()] on the current scene if
    there is one, the construction of a new object of the class registered
    for the pending name, [enter()] on that object.  The object is new (no
    earlier call mentions it), it becomes the current scene, and its
    constructor is given the cue map's finale message exactly when the
    pending name is "finale".  The same holds when the completion is the
    end of a tick, after that tick's [update] call. *)
Theorem complete_transition_order (lm : option LyricMap) (cs : list Call) :
  Forall valid_call cs ->
  let w := run cs (World_init lm) in
  forall n, next_scene_name (director w) = Some n ->
  exists cls, scenes (director w) !! n = Some cls /\
    let s := incoming w n cls in
    scene_class s = cls /\
    init_finale_message s =
      match lyric_map (director w) with
      | Some m => if String.eqb n "finale" then Some (finale_message m) else None
      | None => None
      end /\
    Forall (fun ev => event_id ev <> scene_id s) (trace w) /\
    (forall old, current_scene (director w) = Some old -> scene_id old <> scene_id s) /\
    (let w' := snd (_complete_transition w) in
     fst (_complete_transition w) = Ok tt /\
     trace w' = trace w ++ exit_events (director w) ++
                  [Construct s; Enter (scene_id s)] /\
     current_scene (director w') = Some s) /\
    (forall dt ctx,
     (1 <=? transition_alpha (director w) + dt / FADE_DURATION)%float = true ->
     let w' := snd (update_scenes dt ctx w) in
     fst (update_scenes dt ctx w) = Ok tt /\
     trace w' = trace w ++ update_events (director w) dt ctx ++
                  exit_events (director w) ++ [Construct s; Enter (scene_id s)] /\
     current_scene (director w') = Some s).
Proof.
  intros Hv w n Hn. pose proof (reachable_inv lm cs Hv) as [Hw _ _].
  fold w in Hw. destruct (wired_pending _ Hw n Hn) as [cls Hcls].
  exists cls. split; [assumption|]. cbv zeta.
  split; [reflexivity|]. split; [reflexivity|].
  split; [|split; [|split]].
  - eapply Forall_impl; [apply (wired_trace _ Hw)|]. cbn. intros ev H. lia.
  - intros old Hold. pose proof (wired_current _ Hw old Hold). cbn. lia.
  - rewrite (complete_transition_spec w n cls) by assumption. cbn. auto.
  - intros dt ctx Ha. rewrite (tick_completes w dt ctx n cls) by assumption.
    cbn. rewrite <- app_assoc. auto.
Qed.

Lemma demo_calls_valid : Forall valid_call demo_calls.
Proof.
  unfold demo_calls, main_registrations. cbn [app].
  repeat (apply List.Forall_cons;
          [cbn; first [exact I | intros H; discriminate H | intros _; reflexivity]|]).
  apply List.Forall_nil.
Defined.




(** In binary64 fifteen frames of [FRAME_TIME] bring alpha to the float
    just below 1, so the fade of [main] completes on the sixteenth frame. *)
Example fade_takes_sixteen_frames :
  let frames n :=
    run (replicate n (UpdateScenes Binary64.FRAME_TIME demo_context)) mid_transition in
  transition_alpha (director (frames 15%nat)) = 0x1.fffffffffffffp-1%float /\
  next_scene_name (director (frames 15%nat)) = Some "starfield" /\
  next_scene_name (director (frames 16%nat)) = None /\
  transition_alpha (director (frames 16%nat)) = 0%float.
Proof. vm_compute. repeat split; reflexivity. Qed.

(** Completing the pending transition of [mid_transition]: "intro" (object
    0) exits, a [SceneStarfield] is constructed as object 1 and entered. *)
Lemma complete_transition_order_witness :
  Forall valid_call demo_calls /\
  exists s,
    scene_class s = SceneStarfield /\ scene_id s = 1%nat /\
    trace (snd (_complete_transition mid_transition)) =
      trace mid_transition ++ [Exit 0; Construct s; Enter 1].
Proof.
  split; [exact demo_calls_valid|].
  destruct (complete_transition_order (Some LyricSpec.demo_map) demo_calls
              demo_calls_valid "starfield" eq_refl)
    as (cls & Hcls & _ & _ & _ & _ & (_ & Htr & _) & _).
  vm_compute in Hcls. injection Hcls as <-.
  exists (incoming mid_transition "starfield" SceneStarfield).
  split; [reflexivity|]. split; [reflexivity|]. exact Htr.
Defined.

(** C6. [transition_to] with a name that is not registered raises
    [ValueError] and changes nothing; with a registered name it makes that
    name pending, sets alpha to 0, changes nothing else and does not raise. *)
Theorem transition_to_checks_registry (w : World) (scene_name : string) :
  (scenes (director w) !! scene_name = None ->
     transition_to scene_name w =
     (Raise (ValueError ("Unknown scene: " ++ scene_name)), w)) /\
  (forall cls, scenes (director w) !! scene_name = Some cls ->
     let w' := snd (transition_to scene_name w) in
     fst (transition_to scene_name w) = Ok tt /\
     next_scene_name (director w') = Some scene_name /\
     transition_alpha (director w') = 0%float /\
     w' = upd (fun d => set_transition_alpha 0%float
                          (set_next_scene_name (Some scene_name) d)) w).
Proof.
  split.
  - intros H. open_world w. run_method. now rewrite H.
  - intros cls H. open_world w. run_method. rewrite H. cbn. auto.
Qed.

(** An unregistered name on [main]'s Director. *)
Lemma transition_to_checks_registry_witness :
  scenes (director mid_transition) !! "disco" = None /\
  transition_to "disco" mid_transition =
  (Raise (ValueError "Unknown scene: disco"), mid_transition).
Proof.
  split; [reflexivity|].
  apply (transition_to_checks_registry mid_transition "disco"). reflexivity.
Defined.










Lemma render_scenes_spec w console :
  transitioning_scene (director w) = None ->
  render_scenes console w =
  (Ok tt, match current_scene (director w) with
          | Some s => logged [Render (scene_id s) console 1%float] w
          | None => w
          end).
Proof.
  intros Hno. open_world w. subst inc. run_method. destruct cur; reflexivity.
Qed.

(** Whenever the Director is driven by valid calls no incoming scene
    object exists, so a frame is painted from the current scene alone, at
    alpha 1, whether or not a transition is pending. *)
Lemma render_scenes_current_only (cue_map : option LyricMap) cs console :
  Forall valid_call cs ->
  let w := run cs (World_init cue_map) in
  transitioning_scene (director w) = None /\
  render_scenes console w =
  (Ok tt, match current_scene (director w) with
          | Some s => logged [Render (scene_id s) console 1%float] w
          | None => w
          end).
Proof.
  intros Hv w. pose proof (reachable_inv cue_map cs Hv) as [[Hno _ _ _ _] _ _].
  fold w in Hno. split; [assumption|]. now apply render_scenes_spec.
Qed.

(** C1 (the code departs from the claim). On [main]'s Director showing
    "intro" (object 0) with a transition to "starfield" pending, one tick
    and one render call update and paint the current scene only, at alpha
    1, although alpha stands at 1/15 (the binary64 quotient): no incoming
    scene object exists until the transition completes, so nothing is
    cross-faded. *)
Theorem pending_transition_paints_current_only :
  let w := mid_transition in
  let w' := run [UpdateScenes Binary64.FRAME_TIME demo_context; RenderScenes 7] w in
  next_scene_name (director w) = Some "starfield" /\
  next_scene_name (director w') = Some "starfield" /\
  transition_alpha (director w') = (1 / 15)%float /\
  transitioning_scene (director w') = None /\
  emitted w w' = [Update 0 Binary64.FRAME_TIME demo_context; Render 0 7 1%float].
Proof. vm_compute. repeat split; reflexivity. Qed.

End DirectorFacts.

(** ** Particles *)

Module ParticleFacts.
Import Particle ParticleSpec.
Local Open Scope float_scope.

Lemma life_update p dt : life (update p dt) = life p - dt / max_life p.
Proof. reflexivity. Qed.

Lemma max_life_update_n n : forall p dt, max_life (update_n n p dt) = max_life p.
Proof. induction n as [|n IH]; intros p dt; cbn; [reflexivity|]. now rewrite IH. Qed.

Lemma life_update_n_S n p dt :
  life (update_n (S n) p dt) = life (update_n n p dt) - dt / max_life p.
Proof.
  revert p. induction n as [|n IH]; intros p; [reflexivity|].
  change (update_n (S (S n)) p dt) with (update_n (S n) (update p dt) dt).
  rewrite IH. reflexivity.
Qed.

(** C9. For a particle with gravity 9.8, drag 0, life 1.0 and max_life 2.0,
    each [update(dt)] takes dt / max_life off the life, and after four
    updates with dt = 0.5 the life is exactly 0.0 and [is_alive()] is
    false.  All of it in binary64 arithmetic. *)
Theorem life_runs_out (p : Particle) :
  gravity p = gravity_9_8 -> drag p = 0 -> life p = 1 -> max_life p = 2 ->
  (forall q dt, life (update q dt) = life q - dt / max_life q) /\
  life (update_n 4 p 0.5) = 0 /\
  is_alive (update_n 4 p 0.5) = false.
Proof.
  intros _ _ Hlife Hmax.
  assert (life (update_n 4 p 0.5) = 0) as H4.
  { rewrite !life_update_n_S. cbn [update_n]. rewrite Hlife, Hmax. reflexivity. }
  split; [intros q dt; apply life_update|]. split; [exact H4|].
  unfold is_alive. rewrite H4. reflexivity.
Qed.

Lemma life_runs_out_witness :
  life (update_n 4 spark 0.5) = 0 /\ is_alive (update_n 4 spark 0.5) = false.
Proof.
  destruct (life_runs_out spark eq_refl eq_refl eq_refl eq_refl) as (_ & H & H').
  split; assumption.
Defined.

End ParticleFacts.
